(** * ringbuf: the user-space reader of a BPF ring buffer

    A shallow embedding of [ringbuf/reader.go]: the record header and its two
    flag bits, [readRecord], and the blocking [Reader] ([NewReader], [Close],
    [SetDeadline], [Read], [ReadInto], [BufferSize]).

    The memory-mapped ring ([ringbufEventRing]), the readiness poller
    ([epoll.Poller]), [internal.Align] and the [unix] flag constants live in
    sibling packages; they are modelled from the design document and marked
    as such. *)

From Stdlib Require Import ZArith Lia List String Bool.
From coqutil Require Import Byte Word.LittleEndianList.
From stdpp Require Import base tactics option list.

Local Open Scope string_scope.
Local Open Scope list_scope.
Local Open Scope Z_scope.

(** ** Machine integers *)

Definition u32 (z : Z) : Z := z mod 2 ^ 32.
Definition u64 (z : Z) : Z := z mod 2 ^ 64.

(** Go's [int(x)] for a [uint64] [x] on a 64-bit platform: the same bits,
    read as a signed number. *)
Definition int_of_u64 (z : Z) : Z :=
  if z <? 2 ^ 63 then z else z - 2 ^ 64.

(** ** Errors

    The sentinel values of the package, the ones of [os] and [io] that the
    reader compares against, and [fmt.Errorf] with [%w]. *)

Inductive Error : Type :=
| ErrClosed                     (* os.ErrClosed, also ringbuf.ErrClosed *)
| ErrDeadlineExceeded           (* os.ErrDeadlineExceeded *)
| io_EOF
| io_ErrUnexpectedEOF
| errEOR                        (* "end of ring" *)
| errDiscard                    (* "sample discarded" *)
| errBusy                       (* "sample not committed yet" *)
| Errno (code : Z)              (* any other failure of a system call *)
| ErrText (msg : string)        (* fmt.Errorf without %w *)
| Errorf (msg : string) (cause : Error).  (* fmt.Errorf("msg: %w", cause) *)

Definition Error_eq_dec (a b : Error) : {a = b} + {a <> b}.
Proof. decide equality; solve [apply Z.eq_dec | apply string_dec]. Defined.

Definition Error_eqb (a b : Error) : bool :=
  if Error_eq_dec a b then true else false.

(** [errors.Is]: the error itself or anything it wraps. *)
Fixpoint errors_Is (err target : Error) : bool :=
  Error_eqb err target ||
  match err with
  | Errorf _ cause => errors_Is cause target
  | _ => false
  end.

(** [errors.Is(err, target)] on a possibly nil [err]. *)
Definition errors_Is_opt (err : option Error) (target : Error) : bool :=
  match err with
  | Some e => errors_Is e target
  | None => false
  end.

(** ** The record header *)

(** Modelled from the spec: the constants [unix.BPF_RINGBUF_BUSY_BIT] and
    [unix.BPF_RINGBUF_DISCARD_BIT], which are declared outside this package.
    The wire format puts the busy flag in bit 31 and the discard flag in
    bit 30 of the length word. *)
Definition BPF_RINGBUF_BUSY_BIT : Z := 2 ^ 31.
Definition BPF_RINGBUF_DISCARD_BIT : Z := 2 ^ 30.

Definition ringbufHeaderSize : Z := 8.

(** [struct bpf_ringbuf_hdr]: a 32-bit length word and the producer's
    page offset, which the reader ignores. *)
Record ringbufHeader : Type := mkHeader {
  Len : Z;
  pg_off : Z
}.

Definition isBusy (rh : ringbufHeader) : bool :=
  negb (Z.land (Len rh) BPF_RINGBUF_BUSY_BIT =? 0).

Definition isDiscard (rh : ringbufHeader) : bool :=
  negb (Z.land (Len rh) BPF_RINGBUF_DISCARD_BIT =? 0).

Definition dataLen (rh : ringbufHeader) : Z :=
  Z.land (Len rh)
         (u32 (Z.lnot (Z.lor BPF_RINGBUF_BUSY_BIT BPF_RINGBUF_DISCARD_BIT))).

(** Modelled from the spec: [internal.Align], declared outside this package.
    The aligned length is the payload length rounded up to the next multiple
    of the alignment. *)
Definition Align (n alignment : Z) : Z :=
  (n + alignment - 1) / alignment * alignment.

(** ** Go slices of bytes

    A slice is kept as its backing array from the slice's first element on
    (its length is the capacity) and the slice's length. *)

Record slice : Type := mkSlice {
  s_arr : list byte;
  s_len : nat
}.

Definition nil_slice : slice := mkSlice [] 0.
Definition slice_cap (s : slice) : nat := length (s_arr s).
Definition slice_bytes (s : slice) : list byte := take (s_len s) (s_arr s).

(** [make([]byte, n)] *)
Definition make_slice (n : nat) : slice := mkSlice (replicate n Byte.x00) n.

(** [s[:n]], for [n] within the capacity. *)
Definition reslice (s : slice) (n : nat) : slice := mkSlice (s_arr s) n.

(** [copy(s, src)]: overwrites the first [min(len(s), len(src))] elements. *)
Definition slice_copy (s : slice) (src : list byte) : slice * nat :=
  let n := Nat.min (s_len s) (length src) in
  (mkSlice (take n src ++ drop n (s_arr s)) (s_len s), n).

Record Record_ : Type := mkRecord {
  RawSample : slice;
  (* The minimum number of bytes remaining in the ring buffer after this
     Record has been read. *)
  Remaining : Z
}.

Definition zero_Record : Record_ := mkRecord nil_slice 0.

(** ** The shared ring region *)

(** Modelled from the spec: [ringbufEventRing], the memory-mapped ring, which
    is declared in the mmap-management sibling of this file.  The data region
    holds [C] bytes; the producer position and the consumer position are
    64-bit counters that only grow; [cons] is the reader's own cursor, the
    position it has decoded up to and not yet published. *)
Record ringbufEventRing : Type := mkRing {
  data : list byte;
  prod_pos : Z;
  cons_pos : Z;
  cons : Z
}.

Definition set_cons (rd : ringbufEventRing) (c : Z) : ringbufEventRing :=
  mkRing (data rd) (prod_pos rd) (cons_pos rd) c.

Definition capacity (rd : ringbufEventRing) : Z := Z.of_nat (length (data rd)).

(** Modelled from the spec: the data region is mapped twice, back to back, so
    that offsets [o] and [o + C] name the same byte. *)
Definition aliased (rd : ringbufEventRing) : list byte := data rd ++ data rd.

(** Modelled from the spec: [consumerPosition], the last value stored. *)
Definition consumerPosition (rd : ringbufEventRing) : Z := cons_pos rd.

(** Modelled from the spec: [loadProducerPosition], the producer's published
    position. *)
Definition loadProducerPosition (rd : ringbufEventRing) : Z := prod_pos rd.

(** Modelled from the spec: [storeConsumerPosition], publishing [pos]. *)
Definition storeConsumerPosition (rd : ringbufEventRing) (pos : Z)
  : ringbufEventRing :=
  mkRing (data rd) (prod_pos rd) pos (cons rd).

(** Modelled from the spec: [remainingBytes], the producer position minus the
    consumer position. *)
Definition remainingBytes (rd : ringbufEventRing) : Z :=
  int_of_u64 (u64 (loadProducerPosition rd - consumerPosition rd)).

(** Modelled from the spec: [copyBytes], [n] bytes starting at [pos mod C] of
    the aliased view. *)
Definition copyBytes (rd : ringbufEventRing) (pos : Z) (n : nat) : list byte :=
  take n (drop (Z.to_nat (pos mod capacity rd)) (aliased rd)).

(** The header is mapped in host byte order, little-endian here. *)
Definition decodeHeader (b : list byte) : ringbufHeader :=
  mkHeader (le_combine (take 4 b)) (le_combine (take 4 (drop 4 b))).

(** Modelled from the spec: [readHeaderAt], the eight bytes at [pos mod C]
    decoded, or the end-of-ring signal ([None]) when [pos] is the producer
    position. *)
Definition readHeaderAt (rd : ringbufEventRing) (pos : Z)
  : option ringbufHeader :=
  if pos =? loadProducerPosition rd then None
  else Some (decodeHeader (copyBytes rd pos 8)).

(** The methods [readRecord] and [ReadInto] call.  Each is the operation of
    the spec's contract applied at the reader's cursor. *)

(** Modelled from the spec: [loadConsumer], step 1 of the framer,
    re-reading the consumer position into the cursor. *)
Definition loadConsumer (rd : ringbufEventRing) : ringbufEventRing :=
  set_cons rd (consumerPosition rd).

(** Modelled from the spec: [storeConsumer], publishing the cursor. *)
Definition storeConsumer (rd : ringbufEventRing) : ringbufEventRing :=
  storeConsumerPosition rd (cons rd).

(** Modelled from the spec: [readHeader], [readHeaderAt] the cursor; the
    cursor moves over the eight header bytes; end of ring is [io.EOF]. *)
Definition readHeader (rd : ringbufEventRing)
  : ringbufEventRing * (ringbufHeader + Error) :=
  match readHeaderAt rd (cons rd) with
  | None => (rd, inr io_EOF)
  | Some h => (set_cons rd (u64 (cons rd + ringbufHeaderSize)), inl h)
  end.

(** Modelled from the spec: [skipRead], moving the cursor over [skipBytes]
    bytes without copying them. *)
Definition skipRead (rd : ringbufEventRing) (skipBytes : Z) : ringbufEventRing :=
  set_cons rd (u64 (cons rd + skipBytes)).

(** Modelled from the spec: [remaining] is [remainingBytes]. *)
Definition remaining (rd : ringbufEventRing) : Z := remainingBytes rd.

(** Modelled from the spec: [isEmpty], no bytes remain. *)
Definition isEmpty (rd : ringbufEventRing) : bool := remainingBytes rd =? 0.

(** Modelled from the spec: [size], the capacity of the data region. *)
Definition size (rd : ringbufEventRing) : Z := capacity rd.

(** Modelled from the spec: [Read], the ring as an [io.Reader]: [copyBytes]
    at the cursor into [p], as many bytes as [p] holds and the producer has
    published; the cursor moves over them; [io.EOF] once the cursor is at the
    producer position. *)
Definition ring_Read (rd : ringbufEventRing) (p : slice)
  : ringbufEventRing * slice * nat * option Error :=
  let prod := loadProducerPosition rd in
  let avail := u64 (prod - cons rd) in
  let n := Z.to_nat (Z.min (Z.of_nat (s_len p)) avail) in
  let '(p', n') := slice_copy p (copyBytes rd (cons rd) n) in
  let rd' := set_cons rd (u64 (cons rd + Z.of_nat n')) in
  (rd', p', n', if prod =? cons rd' then Some io_EOF else None).

(** [io.ReadAtLeast]'s loop, [for n < min && err == nil], reading into
    [buf[n:]], which shares the backing array of [buf]. *)
Fixpoint ReadAtLeast_loop (fuel : nat) (rd : ringbufEventRing) (buf : slice)
    (min n : nat) : ringbufEventRing * slice * nat * option Error :=
  match fuel with
  | O => (rd, buf, n, None)
  | S fuel' =>
    if (n <? min)%nat then
      let sub := mkSlice (drop n (s_arr buf)) (s_len buf - n) in
      let '(rd', sub', nn, err) := ring_Read rd sub in
      let buf' := mkSlice (take n (s_arr buf) ++ s_arr sub') (s_len buf) in
      match err with
      | None => ReadAtLeast_loop fuel' rd' buf' min (n + nn)
      | Some _ => (rd', buf', (n + nn)%nat, err)
      end
    else (rd, buf, n, None)
  end.

(** [io.ReadFull(rd, buf)].  A [Read] of the ring that comes back short
    reports [io.EOF], so the loop is over after one round; the fuel covers
    it. *)
Definition ReadFull (rd : ringbufEventRing) (buf : slice)
  : ringbufEventRing * slice * nat * option Error :=
  let min := s_len buf in
  let '(rd', buf', n, err) := ReadAtLeast_loop (S min) rd buf min 0 in
  let err' :=
    if (min <=? n)%nat then None
    else match err with
         | Some e => if (0 <? n)%nat && Error_eqb e io_EOF
                     then Some io_ErrUnexpectedEOF else Some e
         | None => None
         end in
  (rd', buf', n, err').

(** ** The record framer *)

(** Read a record from an event ring. *)
Definition readRecord (rd : ringbufEventRing) (rec : Record_)
  : ringbufEventRing * Record_ * option Error :=
  let rd := loadConsumer rd in
  match readHeader rd with
  | (rd, inr err) =>
    if Error_eqb err io_EOF then (rd, rec, Some errEOR)
    else (rd, rec, Some (Errorf "read event header" err))
  | (rd, inl header) =>
    if isBusy header then
      (* the next sample in the ring is not committed yet so we exit without
         storing the reader/consumer position and start again from the same
         position. *)
      (rd, rec, Some errBusy)
    else
      (* read up to 8 byte alignment *)
      let dataLenAligned := u64 (Align (dataLen header) 8) in
      if isDiscard header then
        (* skip the record by just updating the consumer position *)
        let rd := skipRead rd dataLenAligned in
        let rd := storeConsumer rd in
        (rd, rec, Some errDiscard)
      else
        let raw :=
          if Z.of_nat (slice_cap (RawSample rec)) <? int_of_u64 dataLenAligned
          then make_slice (Z.to_nat dataLenAligned)
          else reslice (RawSample rec) (Z.to_nat dataLenAligned) in
        let '(rd, raw, _, err) := ReadFull rd raw in
        match err with
        | Some e =>
          (rd, mkRecord raw (Remaining rec), Some (Errorf "read sample" e))
        | None =>
          let rd := storeConsumer rd in
          let raw := reslice raw (Z.to_nat (dataLen header)) in
          (rd, mkRecord raw (remaining rd), None)
        end
  end.

(** ** The collaborators: system resources, the poller, the backing map *)

(** What the reader acquires from and gives back to the system, newest
    first. *)
Inductive SysEvent : Type :=
| EvEpollCreate
| EvEpollClose
| EvRingMap
| EvRingUnmap.

Definition SysEvent_eq_dec (a b : SysEvent) : {a = b} + {a <> b}.
Proof. decide equality. Defined.

Definition Sys : Type := list SysEvent.

Definition count_ev (e : SysEvent) (s : Sys) : nat := count_occ SysEvent_eq_dec s e.

(** Modelled from the spec: [epoll.Poller], the readiness poller, declared in
    an internal package.  [pending] scripts what the coming calls of [Wait]
    report: [None] for a wake-up, [Some err] for deadline-exceeded or an I/O
    failure. *)
Record Poller : Type := mkPoller {
  p_closed : bool;
  pending : list (option Error)
}.

(** Modelled from the spec: [epoll.New]. *)
Definition epoll_New (fail : option Error) (script : list (option Error))
    (sys : Sys) : Sys * (Poller + Error) :=
  match fail with
  | Some e => (sys, inr e)
  | None => (EvEpollCreate :: sys, inl (mkPoller false script))
  end.

(** Modelled from the spec: [Poller.Add(fd, flags)]. *)
Definition poller_Add (fail : option Error) (p : Poller) (fd : Z)
  : Poller * option Error :=
  (p, fail).

(** Modelled from the spec: [Poller.Wait(events, deadline)]: the closed
    signal on a closed poller, else the next scripted report; with nothing
    scripted the call stays blocked ([None]). *)
Definition poller_Wait (p : Poller) (deadline : Z)
  : option (Poller * Z * option Error) :=
  if p_closed p then Some (p, 0, Some (Errorf "epoll wait" ErrClosed))
  else match pending p with
       | [] => None
       | None :: rest => Some (mkPoller false rest, 1, None)
       | Some e :: rest => Some (mkPoller false rest, 0, Some e)
       end.

(** Modelled from the spec: [Poller.Close]: releases the poller; a poller
    that is already closed reports the closed signal. *)
Definition poller_Close (p : Poller) (sys : Sys)
  : Poller * Sys * option Error :=
  if p_closed p then (p, sys, Some (Errorf "epoll poller" ErrClosed))
  else (mkPoller true (pending p), EvEpollClose :: sys, None).

(** Modelled from the spec: [ebpf.MapType], the type discriminator of the
    backing object. *)
Inductive MapType : Type :=
| UnspecifiedMap
| Hash
| Array
| PerfEventArray
| RingBuf
| OtherMapType (n : Z).

Definition MapType_eqb (a b : MapType) : bool :=
  match a, b with
  | UnspecifiedMap, UnspecifiedMap | Hash, Hash | Array, Array
  | PerfEventArray, PerfEventArray | RingBuf, RingBuf => true
  | OtherMapType n, OtherMapType m => n =? m
  | _, _ => false
  end.

(** Modelled from the spec: [ebpf.Map], the backing descriptor provider:
    its kind, its capacity (a [uint32]) and its descriptor. *)
Record Map : Type := mkMap {
  map_Type : MapType;
  map_MaxEntries : Z;
  map_FD : Z
}.

(** What the system does at the calls [NewReader] makes: whether
    [epoll.New], [Poller.Add] and the mapping fail, what the poller will
    report, and the shared memory behind the descriptor. *)
Record Env : Type := mkEnv {
  env_epoll_New : option Error;
  env_poller_Add : option Error;
  env_mmap : option Error;
  env_script : list (option Error);
  env_shared : ringbufEventRing
}.

(** Modelled from the spec: [newRingBufEventRing(fd, size)], mapping the
    control page and the data region; the cursor starts at the stored
    consumer position. *)
Definition newRingBufEventRing (env : Env) (fd size_ : Z) (sys : Sys)
  : Sys * (ringbufEventRing + Error) :=
  match env_mmap env with
  | Some e => (sys, inr e)
  | None => (EvRingMap :: sys, inl (loadConsumer (env_shared env)))
  end.

(** Modelled from the spec: [ringbufEventRing.Close], unmapping the ring. *)
Definition ring_Close (rd : ringbufEventRing) (sys : Sys) : Sys :=
  EvRingUnmap :: sys.

(** ** The blocking reader *)

(** Reader allows reading bpf_ringbuf_output from user space.  The mutex is
    not modelled: operations run one at a time. *)
Record Reader : Type := mkReader {
  poller : Poller;
  ring : option ringbufEventRing;
  haveData : bool;
  deadline : Z;
  bufferSize : Z
}.

Definition set_poller (r : Reader) (p : Poller) : Reader :=
  mkReader p (ring r) (haveData r) (deadline r) (bufferSize r).
Definition set_ring (r : Reader) (rd : option ringbufEventRing) : Reader :=
  mkReader (poller r) rd (haveData r) (deadline r) (bufferSize r).
Definition set_haveData (r : Reader) (b : bool) : Reader :=
  mkReader (poller r) (ring r) b (deadline r) (bufferSize r).

(** Go's [int(x)] for a [uint32] [x] on a 64-bit platform. *)
Definition int_of_u32 (z : Z) : Z := u32 z.

(** NewReader creates a new BPF ringbuf reader. *)
Definition NewReader (env : Env) (ringbufMap : Map) (sys : Sys)
  : Sys * option Reader * option Error :=
  if negb (MapType_eqb (map_Type ringbufMap) RingBuf) then
    (sys, None, Some (ErrText "invalid Map type"))
  else
    let maxEntries := int_of_u32 (map_MaxEntries ringbufMap) in
    if (maxEntries =? 0) || negb (Z.land maxEntries (maxEntries - 1) =? 0) then
      (sys, None,
       Some (ErrText "ringbuffer map size is zero or not a power of two"))
    else
      match epoll_New (env_epoll_New env) (env_script env) sys with
      | (sys, inr err) => (sys, None, Some err)
      | (sys, inl poller) =>
        match poller_Add (env_poller_Add env) poller (map_FD ringbufMap) with
        | (poller, Some err) =>
          let '(_, sys, _) := poller_Close poller sys in
          (sys, None, Some err)
        | (poller, None) =>
          match newRingBufEventRing env (map_FD ringbufMap) maxEntries sys with
          | (sys, inr err) =>
            let '(_, sys, _) := poller_Close poller sys in
            (sys, None, Some (Errorf "failed to create ringbuf ring" err))
          | (sys, inl ring) =>
            (sys, Some (mkReader poller (Some ring) false 0 (size ring)), None)
          end
        end
      end.

(** Close frees resources used by the reader.  It interrupts calls to
    Read. *)
Definition Close (r : Reader) (sys : Sys) : Reader * Sys * option Error :=
  let '(p, sys, err) := poller_Close (poller r) sys in
  let r := set_poller r p in
  match err with
  | Some e =>
    if errors_Is e ErrClosed then (r, sys, None) else (r, sys, Some e)
  | None =>
    match ring r with
    | Some rd => (set_ring r None, ring_Close rd sys, None)
    | None => (r, sys, None)
    end
  end.

(** SetDeadline controls how long Read and ReadInto will block waiting for
    samples. *)
Definition SetDeadline (r : Reader) (t : Z) : Reader :=
  mkReader (poller r) (ring r) (haveData r) t (bufferSize r).

(** How a call that may wait forever ends. *)
Inductive Outcome (A : Type) : Type :=
| Returned (a : A)    (* the call returns *)
| Blocked             (* the call stays in [Poller.Wait] *)
| Spinning.           (* the call is still looping when the fuel is out *)
Arguments Returned {A} a.
Arguments Blocked {A}.
Arguments Spinning {A}.

(** How the inner loop of [ReadInto] ends: [break] or [return err]. *)
Inductive LoopExit : Type :=
| Break
| Return (err : option Error).

(** The inner loop of [ReadInto]. *)
Fixpoint drainLoop (fuel : nat) (rd : ringbufEventRing) (rec : Record_)
  : option (ringbufEventRing * Record_ * LoopExit) :=
  match fuel with
  | O => None
  | S fuel' =>
    let '(rd', rec', err) := readRecord rd rec in
    match err with
    | Some e =>
      if Error_eqb e errBusy || Error_eqb e errDiscard then
        drainLoop fuel' rd' rec'
      else if Error_eqb e errEOR then Some (rd', rec', Break)
      else Some (rd', rec', Return err)
    | None => Some (rd', rec', Return err)
    end
  end.

(** The outer loop of [ReadInto], entered with the ring open. *)
Fixpoint readLoop (fuel : nat) (r : Reader) (rd : ringbufEventRing)
    (rec : Record_) : Outcome (Reader * Record_ * option Error) :=
  match fuel with
  | O => Spinning
  | S fuel' =>
    let waited :=
      if negb (haveData r) then
        match poller_Wait (poller r) (deadline r) with
        | None => Blocked
        | Some (p, _, err) =>
          let err :=
            if errors_Is_opt err ErrDeadlineExceeded && negb (isEmpty rd)
            then
              (* Ignoring this for reading a valid entry after timeout *)
              None
            else err in
          Returned (set_poller r p, err)
        end
      else Returned (r, None) in
    match waited with
    | Blocked => Blocked
    | Spinning => Spinning
    | Returned (r, Some err) => Returned (r, rec, Some err)
    | Returned (r, None) =>
      let r := set_haveData r true in
      match drainLoop fuel' rd rec with
      | None => Spinning
      | Some (rd', rec', Return err) =>
        Returned (set_ring r (Some rd'), rec', err)
      | Some (rd', rec', Break) =>
        readLoop fuel' (set_haveData (set_ring r (Some rd')) false) rd' rec'
      end
    end
  end.

(** ReadInto is like Read except that it allows reusing Record and
    associated buffers. *)
Definition ReadInto (fuel : nat) (r : Reader) (rec : Record_)
  : Outcome (Reader * Record_ * option Error) :=
  match ring r with
  | None => Returned (r, rec, Some (Errorf "ringbuffer" ErrClosed))
  | Some rd => readLoop fuel r rd rec
  end.

(** Read the next record from the BPF ringbuf: [ReadInto] on a fresh
    Record, which is handed back as [ReadInto] left it. *)
Definition Read (fuel : nat) (r : Reader)
  : Outcome (Reader * Record_ * option Error) :=
  ReadInto fuel r zero_Record.

(** BufferSize returns the size in bytes of the ring buffer. *)
Definition BufferSize (r : Reader) : Z := bufferSize r.

(** ** Driving the reader *)

(** The operations of the public surface. *)
Inductive Op : Type :=
| OpRead
| OpReadInto (rec : Record_)
| OpSetDeadline (t : Z)
| OpBufferSize
| OpClose.

(** What an operation hands back, by signature. *)
Inductive OpResult : Type :=
| ResRecord (rec : Record_) (err : option Error)   (* Read, ReadInto *)
| ResNothing                                        (* SetDeadline *)
| ResInt (n : Z)                                    (* BufferSize *)
| ResError (err : option Error).                    (* Close *)

Definition run_op (fuel : nat) (op : Op) (st : Reader * Sys)
  : Outcome (Reader * Sys * OpResult) :=
  let '(r, sys) := st in
  match op with
  | OpRead =>
    match Read fuel r with
    | Returned (r', rec, err) => Returned (r', sys, ResRecord rec err)
    | Blocked => Blocked
    | Spinning => Spinning
    end
  | OpReadInto rec =>
    match ReadInto fuel r rec with
    | Returned (r', rec', err) => Returned (r', sys, ResRecord rec' err)
    | Blocked => Blocked
    | Spinning => Spinning
    end
  | OpSetDeadline t => Returned (SetDeadline r t, sys, ResNothing)
  | OpBufferSize => Returned (r, sys, ResInt (BufferSize r))
  | OpClose =>
    let '(r', sys', err) := Close r sys in Returned (r', sys', ResError err)
  end.

(** A run of operations, one after the other; it ends where one of them
    does not return. *)
Fixpoint run_ops (fuel : nat) (ops : list Op) (st : Reader * Sys)
  : Outcome (Reader * Sys) :=
  match ops with
  | [] => Returned st
  | op :: ops' =>
    match run_op fuel op st with
    | Returned (r, sys, _) => run_ops fuel ops' (r, sys)
    | Blocked => Blocked
    | Spinning => Spinning
    end
  end.


(** The terminal state: poller closed, ring gone. *)
Definition Closed (r : Reader) : Prop :=
  ring r = None /\ p_closed (poller r) = true.

(** The poller and the ring of a reader are released together. *)
Definition reader_ok (r : Reader) : Prop :=
  p_closed (poller r) = true <-> ring r = None.

(** Calling [Read] until the ring is empty, collecting the payloads. *)
Fixpoint drain (fuel : nat) (r : Reader)
  : Outcome (Reader * list (list byte) * option Error) :=
  match fuel with
  | O => Spinning
  | S fuel' =>
    match ring r with
    | None => Returned (r, [], Some (Errorf "ringbuffer" ErrClosed))
    | Some rd =>
      if isEmpty rd then Returned (r, [], None)
      else
        match Read fuel' r with
        | Returned (r', rec, None) =>
          match drain fuel' r' with
          | Returned (r'', samples, err) =>
            Returned (r'', slice_bytes (RawSample rec) :: samples, err)
          | Blocked => Blocked
          | Spinning => Spinning
          end
        | Returned (r', _, Some e) => Returned (r', [], Some e)
        | Blocked => Blocked
        | Spinning => Spinning
        end
    end
  end.

(** ** The simulated producer *)

(** Modelled from the spec: the wire format of a committed record: the
    length word with both flags clear, the page-offset word, the payload and
    the padding up to the next multiple of eight. *)
Definition frame (payload : list byte) : list byte :=
  let len := Z.of_nat (length payload) in
  le_split 4 len ++ le_split 4 0 ++ payload ++
  replicate (Z.to_nat (Align len 8 - len)) Byte.x00.

Definition frames (payloads : list (list byte)) : list byte :=
  concat (map frame payloads).

(** Writing bytes into the data region from position [pos] on, wrapping at
    the end of the region. *)
Fixpoint write_bytes (d : list byte) (pos : Z) (bs : list byte) : list byte :=
  match bs with
  | [] => d
  | b :: bs' =>
    write_bytes (<[Z.to_nat (pos mod Z.of_nat (length d)) := b]> d) (pos + 1) bs'
  end.

(** Modelled from the spec: the simulated producer of the testable
    properties: it appends one committed record at the producer position and
    publishes the new position, or refuses ([None]) when the length does not
    fit the 30-bit field or the unread data leaves no room. *)
Definition produce (rd : ringbufEventRing) (payload : list byte)
  : option ringbufEventRing :=
  let len := Z.of_nat (length payload) in
  let total := ringbufHeaderSize + Align len 8 in
  if (len <? 2 ^ 30) &&
     (u64 (prod_pos rd - cons_pos rd) + total <=? capacity rd)
  then Some (mkRing (write_bytes (data rd) (prod_pos rd) (frame payload))
                    (u64 (prod_pos rd + total)) (cons_pos rd) (cons rd))
  else None.

Fixpoint produce_all (rd : ringbufEventRing) (payloads : list (list byte))
  : option ringbufEventRing :=
  match payloads with
  | [] => Some rd
  | p :: ps =>
    match produce rd p with
    | Some rd' => produce_all rd' ps
    | None => None
    end
  end.

(** ** Auxiliary notions for the statements *)

Definition is_power_of_two (n : Z) : Prop := exists k, 0 <= k /\ n = 2 ^ k.

(** How many of [want] bytes the producer has published past the cursor. *)
Definition readable (rd : ringbufEventRing) (want : nat) : nat :=
  Z.to_nat (Z.min (Z.of_nat want) (u64 (prod_pos rd - cons rd))).

(** The buffer [readRecord] reads the payload into: a fresh one when the
    caller's is too small, else the caller's, resliced. *)
Definition sampleBuffer (rec : Record_) (h : ringbufHeader) : slice :=
  let dataLenAligned := u64 (Align (dataLen h) 8) in
  if Z.of_nat (slice_cap (RawSample rec)) <? int_of_u64 dataLenAligned
  then make_slice (Z.to_nat dataLenAligned)
  else reslice (RawSample rec) (Z.to_nat dataLenAligned).

(** The ring holds exactly the committed records [payloads], oldest first,
    between the consumer position and the producer position. *)
Definition ring_holds (rd : ringbufEventRing) (payloads : list (list byte))
  : Prop :=
  is_power_of_two (capacity rd) /\ capacity rd < 2 ^ 32 /\
  0 <= prod_pos rd < 2 ^ 64 /\ 0 <= cons_pos rd < 2 ^ 64 /\
  u64 (prod_pos rd - cons_pos rd) = Z.of_nat (length (frames payloads)) /\
  Z.of_nat (length (frames payloads)) <= capacity rd /\
  copyBytes rd (cons_pos rd) (length (frames payloads)) = frames payloads /\
  Forall (fun p => Z.of_nat (length p) < 2 ^ 30) payloads.

(** The next wait of the poller lets [ReadInto] go on to the ring: the
    reader already knows of data, or the poller reports a wake-up or a
    deadline. *)
Definition wakes (r : Reader) : Prop :=
  haveData r = true \/
  (p_closed (poller r) = false /\
   exists w rest, pending (poller r) = w :: rest /\
     (w = None \/ errors_Is_opt w ErrDeadlineExceeded = true)).

(** ** Sample rings *)

(** A ring of 32 bytes whose first record has the length word [lenword] and
    the payload [payload]; the consumer is at 0, the producer at [prod]. *)
Definition sample_ring (lenword : Z) (payload : list byte) (prod : Z)
  : ringbufEventRing :=
  mkRing (take 32 (le_split 4 lenword ++ le_split 4 0 ++ payload ++
                   replicate 32 Byte.x00))
         prod 0 0.

Definition abc : list byte := [Byte.x61; Byte.x62; Byte.x63].

(** An empty ring of [c] bytes with both positions at [pos]. *)
Definition empty_ring (c : nat) (pos : Z) : ringbufEventRing :=
  mkRing (replicate c Byte.x00) pos pos pos.

(** An open reader on [rd] whose poller will report [script]. *)
Definition reader_on (rd : ringbufEventRing) (script : list (option Error))
  : Reader :=
  mkReader (mkPoller false script) (Some rd) false 0 (size rd).

Definition ten_bytes : list byte := replicate 10 Byte.x2a.
Definition twenty_bytes : list byte := replicate 20 Byte.x2b.

(** The ring of the design document's example: 4096 bytes, pre-loaded
    with a record of 10 bytes and one of 20 bytes. *)
Definition two_records : ringbufEventRing :=
  Eval vm_compute in
    default (empty_ring 4096 0)
            (produce_all (empty_ring 4096 0) [ten_bytes; twenty_bytes]).

(** How many rings the reader still holds: what a [Close] may tear down. *)
Definition ring_live (r : Reader) : nat :=
  match ring r with Some _ => 1 | None => 0 end.

(** A reader that has been closed: the sample reader after [Close]. *)
Definition closed_sample : Reader * Sys :=
  let '(r, sys, _) := Close (reader_on (empty_ring 32 0) []) [] in (r, sys).

(** A backing map of the ring-buffer kind with a capacity of 100. *)
Definition map_of_100 : Map := mkMap RingBuf 100 3.

Definition quiet_env : Env := mkEnv None None None [] (empty_ring 32 0).

Definition one_byte : list byte := [Byte.x01].

(** A ring of 32 bytes that was empty at position [2^64 - 8], eight bytes
    before the end of its data region, and then received two records: they
    wrap around the end of the region and of the 64-bit positions. *)
Definition wrapped_ring : ringbufEventRing :=
  Eval vm_compute in
    default (empty_ring 32 (2 ^ 64 - 8))
            (produce_all (empty_ring 32 (2 ^ 64 - 8)) [abc; one_byte]).

(** ** Further notions for the statements *)

(** The three signals of the framer that [ReadInto] handles itself. *)
Definition is_transient (e : Error) : bool :=
  Error_eqb e errBusy || Error_eqb e errDiscard || Error_eqb e errEOR.

(** A length word put together from a payload length and the two flags. *)
Definition lenWord (len : Z) (busy discard : bool) : Z :=
  len + (if busy then BPF_RINGBUF_BUSY_BIT else 0)
      + (if discard then BPF_RINGBUF_DISCARD_BIT else 0).

(** A producer and a consumer taking turns on the reader's ring: [Put]
    appends a record (the producer may refuse it), [Get] calls [Read] when
    the ring is not empty. *)
Inductive Action : Type :=
| Put (payload : list byte)
| Get.

(** Runs the actions; hands back the reader, the payloads read and the
    payloads the producer accepted, both oldest first. *)
Fixpoint run_actions (fuel : nat) (acts : list Action) (r : Reader)
  : Outcome (Reader * list (list byte) * list (list byte)) :=
  match acts with
  | [] => Returned (r, [], [])
  | Put p :: acts' =>
    match ring r with
    | Some rd =>
      match produce rd p with
      | Some rd' =>
        match run_actions fuel acts' (set_ring r (Some rd')) with
        | Returned (r', outs, acc) => Returned (r', outs, p :: acc)
        | Blocked => Blocked
        | Spinning => Spinning
        end
      | None => run_actions fuel acts' r
      end
    | None => run_actions fuel acts' r
    end
  | Get :: acts' =>
    match ring r with
    | Some rd =>
      if isEmpty rd then run_actions fuel acts' r
      else
        match Read fuel r with
        | Returned (r1, rec, None) =>
          match run_actions fuel acts' r1 with
          | Returned (r', outs, acc) =>
            Returned (r', slice_bytes (RawSample rec) :: outs, acc)
          | Blocked => Blocked
          | Spinning => Spinning
          end
        | Returned (r1, _, Some _) => Returned (r1, [], [])
        | Blocked => Blocked
        | Spinning => Spinning
        end
    | None => run_actions fuel acts' r
    end
  end.

(** A system in which registering the descriptor with the poller fails. *)
Definition add_fails_env : Env :=
  mkEnv None (Some (Errno 9)) None [] (empty_ring 32 0).

Definition map_of_32 : Map := mkMap RingBuf 32 3.

(** A ring of 32 bytes holding a discarded record of three bytes and, behind
    it, a committed record of one byte. *)
Definition discard_then_record : ringbufEventRing :=
  mkRing (le_split 4 (lenWord 3 false true) ++ le_split 4 0 ++ abc ++
          replicate 5 Byte.x00 ++ frame one_byte)
         32 0 0.

(** A ring of 32 bytes whose first record announces 16 bytes of payload of
    which the producer has published only 4. *)
Definition half_published : ringbufEventRing :=
  mkRing (le_split 4 16 ++ le_split 4 0 ++ replicate 24 Byte.x2a) 12 0 0.

(** None of the reports scripted for the poller is one of the framer's
    signals. *)
Definition reports_no_transient (p : Poller) : bool :=
  forallb (fun w => match w with
                    | Some e => negb (is_transient e)
                    | None => true
                    end) (pending p).

(** How many pollers the reader still holds open. *)
Definition poller_live (r : Reader) : nat :=
  if p_closed (poller r) then 0 else 1.

(** The bytes a list of committed records takes in the ring: for each, the
    header and the payload rounded up to eight. *)
Definition framed_size (payloads : list (list byte)) : Z :=
  fold_right (fun p acc => ringbufHeaderSize + Align (Z.of_nat (length p)) 8 + acc)
             0 payloads.

(** A producer and a consumer taking turns on a small ring. *)
Definition sample_actions : list Action :=
  [Put abc; Get; Put one_byte; Put abc; Get; Put ten_bytes; Get; Get].

(** * Properties *)

(** ** Header flags *)

Lemma flag_mask_eq :
  u32 (Z.lnot (Z.lor BPF_RINGBUF_BUSY_BIT BPF_RINGBUF_DISCARD_BIT)) = Z.ones 30.
Proof. reflexivity. Qed.

Lemma dataLen_mod (rh : ringbufHeader) : dataLen rh = Len rh mod 2 ^ 30.
Proof. unfold dataLen. rewrite flag_mask_eq. apply Z.land_ones. lia. Qed.

Lemma dataLen_range (rh : ringbufHeader) : 0 <= dataLen rh < 2 ^ 30.
Proof. rewrite dataLen_mod. apply Z.mod_pos_bound. lia. Qed.

Lemma isBusy_testbit (rh : ringbufHeader) : isBusy rh = Z.testbit (Len rh) 31.
Proof.
  unfold isBusy, BPF_RINGBUF_BUSY_BIT.
  destruct (Z.testbit (Len rh) 31) eqn:E.
  - apply negb_true_iff, Z.eqb_neq. intros H.
    apply (f_equal (fun z => Z.testbit z 31)) in H.
    rewrite Z.land_spec, E, Z.pow2_bits_true, Z.bits_0 in H by lia. discriminate.
  - apply negb_false_iff, Z.eqb_eq. apply Z.bits_inj'. intros n Hn.
    rewrite Z.land_spec, Z.bits_0.
    destruct (Z.eq_dec n 31) as [->|Hne]; [now rewrite E|].
    rewrite Z.pow2_bits_false by lia. apply andb_false_r.
Qed.

Lemma isDiscard_testbit (rh : ringbufHeader) :
  isDiscard rh = Z.testbit (Len rh) 30.
Proof.
  unfold isDiscard, BPF_RINGBUF_DISCARD_BIT.
  destruct (Z.testbit (Len rh) 30) eqn:E.
  - apply negb_true_iff, Z.eqb_neq. intros H.
    apply (f_equal (fun z => Z.testbit z 30)) in H.
    rewrite Z.land_spec, E, Z.pow2_bits_true, Z.bits_0 in H by lia. discriminate.
  - apply negb_false_iff, Z.eqb_eq. apply Z.bits_inj'. intros n Hn.
    rewrite Z.land_spec, Z.bits_0.
    destruct (Z.eq_dec n 30) as [->|Hne]; [now rewrite E|].
    rewrite Z.pow2_bits_false by lia. apply andb_false_r.
Qed.

Lemma dataLen_testbit (rh : ringbufHeader) (i : Z) :
  Z.testbit (dataLen rh) i = Z.testbit (Len rh) i && (i <? 30).
Proof.
  rewrite dataLen_mod.
  destruct (Z.ltb_spec i 30).
  - destruct (Z.lt_ge_cases i 0).
    + now rewrite !Z.testbit_neg_r.
    + rewrite Z.mod_pow2_bits_low by lia. now rewrite andb_true_r.
  - rewrite Z.mod_pow2_bits_high by lia. now rewrite andb_false_r.
Qed.

(** ** Alignment *)

Lemma Align_8_bounds (n : Z) : 0 <= n -> n <= Align n 8 < n + 8.
Proof. intros H. unfold Align. pose proof (Z.div_mod (n + 8 - 1) 8).
  pose proof (Z.mod_pos_bound (n + 8 - 1) 8). lia. Qed.


Lemma Align_0 : Align 0 8 = 0.
Proof. reflexivity. Qed.

(** ** 64-bit positions *)

Lemma u64_range (z : Z) : 0 <= u64 z < 2 ^ 64.
Proof. apply Z.mod_pos_bound. lia. Qed.

Lemma u64_small (z : Z) : 0 <= z < 2 ^ 64 -> u64 z = z.
Proof. apply Z.mod_small. Qed.

Lemma u64_add_l (a b : Z) : u64 (u64 a + b) = u64 (a + b).
Proof. unfold u64. now rewrite Zplus_mod_idemp_l. Qed.

Lemma u64_add_r (a b : Z) : u64 (a + u64 b) = u64 (a + b).
Proof. unfold u64. now rewrite Zplus_mod_idemp_r. Qed.

(** ** The framer, case by case *)

Lemma readHeaderAt_set_cons (rd : ringbufEventRing) (c pos : Z) :
  readHeaderAt (set_cons rd c) pos = readHeaderAt rd pos.
Proof. reflexivity. Qed.

Lemma loadConsumer_idem (rd : ringbufEventRing) (c : Z) :
  loadConsumer (set_cons rd c) = loadConsumer rd.
Proof. reflexivity. Qed.

Lemma readHeader_loadConsumer (rd : ringbufEventRing) :
  readHeader (loadConsumer rd) =
  match readHeaderAt rd (cons_pos rd) with
  | None => (loadConsumer rd, inr io_EOF)
  | Some h => (set_cons rd (u64 (cons_pos rd + ringbufHeaderSize)), inl h)
  end.
Proof.
  unfold readHeader, loadConsumer, consumerPosition.
  change (cons (set_cons rd (cons_pos rd))) with (cons_pos rd).
  rewrite readHeaderAt_set_cons. now destruct (readHeaderAt rd (cons_pos rd)).
Qed.

Lemma readRecord_end (rd : ringbufEventRing) (rec : Record_) :
  readHeaderAt rd (cons_pos rd) = None ->
  readRecord rd rec = (loadConsumer rd, rec, Some errEOR).
Proof.
  intros H. unfold readRecord. rewrite readHeader_loadConsumer, H. reflexivity.
Qed.

Lemma readRecord_busy_eq (rd : ringbufEventRing) (rec : Record_)
    (h : ringbufHeader) :
  readHeaderAt rd (cons_pos rd) = Some h ->
  isBusy h = true ->
  readRecord rd rec =
  (set_cons rd (u64 (cons_pos rd + ringbufHeaderSize)), rec, Some errBusy).
Proof.
  intros H Hb. unfold readRecord. rewrite readHeader_loadConsumer, H, Hb.
  reflexivity.
Qed.

Lemma readRecord_discard_eq (rd : ringbufEventRing) (rec : Record_)
    (h : ringbufHeader) :
  readHeaderAt rd (cons_pos rd) = Some h ->
  isBusy h = false ->
  isDiscard h = true ->
  readRecord rd rec =
  (let c := u64 (cons_pos rd + (ringbufHeaderSize + Align (dataLen h) 8)) in
   mkRing (data rd) (prod_pos rd) c c, rec, Some errDiscard).
Proof.
  intros H Hb Hd. unfold readRecord. rewrite readHeader_loadConsumer, H, Hb, Hd.
  unfold storeConsumer, storeConsumerPosition, skipRead, set_cons.
  cbn [cons data prod_pos cons_pos].
  rewrite u64_add_l, u64_add_r, Z.add_assoc. reflexivity.
Qed.

(** ** The aliased view of the data region *)

Lemma lookup_twice {A : Type} (d : list A) (i : nat) :
  (i < 2 * length d)%nat ->
  (d ++ d) !! i = d !! (i mod length d)%nat.
Proof.
  intros Hi. destruct (Nat.lt_ge_cases i (length d)) as [Hlt|Hge].
  - rewrite lookup_app_l by lia. now rewrite Nat.mod_small.
  - rewrite lookup_app_r by lia. f_equal.
    assert (Hd : (i = 1 * length d + (i - length d))%nat) by lia.
    rewrite Hd at 2. rewrite Nat.add_comm, Nat.Div0.mod_add.
    rewrite Nat.mod_small; lia.
Qed.

Section View.
Variable rd : ringbufEventRing.
Hypothesis Hcap : 0 < capacity rd.

Lemma phys_lt (pos : Z) : (Z.to_nat (pos mod capacity rd) < length (data rd))%nat.
  Proof.
    pose proof (Z.mod_pos_bound pos (capacity rd) Hcap). unfold capacity in *. lia.
  Qed.

Lemma length_copyBytes (pos : Z) (n : nat) :
    Z.of_nat n <= capacity rd -> length (copyBytes rd pos n) = n.
  Proof.
    intros Hn. unfold copyBytes, aliased.
    rewrite length_take, length_drop, length_app.
    pose proof (phys_lt pos). unfold capacity in *. lia.
  Qed.

Lemma lookup_copyBytes (pos : Z) (n i : nat) :
    Z.of_nat n <= capacity rd -> (i < n)%nat ->
    copyBytes rd pos n !! i =
    data rd !! Z.to_nat ((pos + Z.of_nat i) mod capacity rd).
  Proof.
    intros Hn Hi. unfold copyBytes, aliased.
    rewrite lookup_take_lt by lia. rewrite lookup_drop.
    pose proof (phys_lt pos) as Hp.
    rewrite lookup_twice by (unfold capacity in *; lia).
    f_equal. apply Nat2Z.inj.
    rewrite Nat2Z.inj_mod, Nat2Z.inj_add.
    rewrite !Z2Nat.id by (apply Z.mod_pos_bound; exact Hcap).
    fold (capacity rd). now rewrite Zplus_mod_idemp_l.
  Qed.

  (** A window inside a larger window. *)
Lemma copyBytes_sub (pos : Z) (k n m : nat) :
    (k + n <= m)%nat -> Z.of_nat m <= capacity rd ->
    copyBytes rd (pos + Z.of_nat k) n = take n (drop k (copyBytes rd pos m)).
  Proof.
    intros Hk Hm. apply list_eq. intros i.
    destruct (Nat.lt_ge_cases i n) as [Hi|Hi].
    - rewrite lookup_copyBytes by lia.
      rewrite lookup_take_lt by lia. rewrite lookup_drop.
      rewrite lookup_copyBytes by lia.
      replace (pos + Z.of_nat k + Z.of_nat i) with (pos + Z.of_nat (k + i)) by lia.
      reflexivity.
    - rewrite !lookup_ge_None_2; [done| |].
      + rewrite length_take. lia.
      + rewrite length_copyBytes by lia. lia.
  Qed.

Lemma copyBytes_prefix (pos : Z) (n m : nat) :
    (n <= m)%nat -> Z.of_nat m <= capacity rd ->
    copyBytes rd pos n = take n (copyBytes rd pos m).
  Proof.
    intros Hn Hm. pose proof (copyBytes_sub pos 0 n m) as H.
    rewrite Z.add_0_r in H. now rewrite H by lia.
  Qed.
End View.

Lemma copyBytes_set_cons (rd : ringbufEventRing) (c pos : Z) (n : nat) :
  copyBytes (set_cons rd c) pos n = copyBytes rd pos n.
Proof. reflexivity. Qed.

(** ** Reading the payload *)

Section Payload.
Variable rd : ringbufEventRing.
Hypothesis Hcap : 0 < capacity rd.
Hypothesis Hprod : 0 <= prod_pos rd < 2 ^ 64.

Lemma readable_le (want : nat) : (readable rd want <= want)%nat.
  Proof. unfold readable. pose proof (u64_range (prod_pos rd - cons rd)). lia. Qed.

Lemma ring_Read_eq (p : slice) :
    Z.of_nat (s_len p) <= capacity rd ->
    let n := readable rd (s_len p) in
    ring_Read rd p =
    (set_cons rd (u64 (cons rd + Z.of_nat n)),
     mkSlice (copyBytes rd (cons rd) n ++ drop n (s_arr p)) (s_len p),
     n,
     if prod_pos rd =? u64 (cons rd + Z.of_nat n) then Some io_EOF else None).
  Proof.
    intros Hlen n. unfold ring_Read, loadProducerPosition, slice_copy.
    fold (readable rd (s_len p)). fold n.
    pose proof (readable_le (s_len p)) as Hle. fold n in Hle.
    rewrite length_copyBytes by (try assumption; lia).
    rewrite Nat.min_r by lia.
    rewrite take_ge by (rewrite length_copyBytes by (try assumption; lia); lia).
    reflexivity.
  Qed.

Lemma short_read_hits_producer (want : nat) :
    (readable rd want < want)%nat ->
    u64 (cons rd + Z.of_nat (readable rd want)) = prod_pos rd.
  Proof.
    unfold readable. intros Hlt.
    pose proof (u64_range (prod_pos rd - cons rd)).
    rewrite Z2Nat.id by lia. rewrite Z.min_r by lia.
    rewrite u64_add_r. replace (cons rd + (prod_pos rd - cons rd)) with (prod_pos rd) by lia.
    now apply u64_small.
  Qed.

Lemma ReadFull_eq (buf : slice) :
    Z.of_nat (s_len buf) <= capacity rd ->
    let n := readable rd (s_len buf) in
    ReadFull rd buf =
    ((if (s_len buf =? 0)%nat then rd
      else set_cons rd (u64 (cons rd + Z.of_nat n))),
     mkSlice (copyBytes rd (cons rd) n ++ drop n (s_arr buf)) (s_len buf),
     n,
     if (n <? s_len buf)%nat
     then Some (if (0 <? n)%nat then io_ErrUnexpectedEOF else io_EOF)
     else None).
  Proof.
    intros Hlen n. pose proof (readable_le (s_len buf)) as Hle. fold n in Hle.
    unfold ReadFull. destruct buf as [arr len]. cbn [s_len s_arr] in *.
    destruct len as [|len'].
    - assert (n = 0%nat) as -> by lia. reflexivity.
    - set (len := S len') in *.
      cbn [ReadAtLeast_loop]. change (0 <? len)%nat with true. cbv iota.
      cbn [s_len s_arr]. rewrite drop_0, Nat.sub_0_r.
      pose proof (ring_Read_eq (mkSlice arr len)) as HR.
      cbn [s_len s_arr] in HR. fold n in HR. rewrite HR by assumption. clear HR.
      cbn [take app s_arr Nat.add].
      destruct (Nat.lt_ge_cases n len) as [Hshort|Hfull].
      + pose proof (short_read_hits_producer len Hshort) as Hp. fold n in Hp.
        rewrite Hp, Z.eqb_refl.
        replace (len <=? n)%nat with false by (symmetry; apply Nat.leb_gt; lia).
        replace (n <? len)%nat with true by (symmetry; apply Nat.ltb_lt; lia).
        replace (len =? 0)%nat with false by reflexivity.
        cbn [Error_eqb]. destruct (0 <? n)%nat; reflexivity.
      + assert (n = len) as Hn by lia.
        replace (n <? len)%nat with false by (symmetry; apply Nat.ltb_ge; lia).
        replace (len =? 0)%nat with false by reflexivity.
        destruct (prod_pos rd =? u64 (cons rd + Z.of_nat n)).
        * replace (len <=? n)%nat with true by (symmetry; apply Nat.leb_le; lia).
          reflexivity.
        * unfold len at 1. cbn [ReadAtLeast_loop].
          replace (n <? len)%nat with false by (symmetry; apply Nat.ltb_ge; lia).
          replace (len <=? n)%nat with true by (symmetry; apply Nat.leb_le; lia).
          reflexivity.
  Qed.
End Payload.

(** ** The framer on a committed record *)

Lemma Align_dataLen_range (h : ringbufHeader) :
  0 <= Align (dataLen h) 8 < 2 ^ 31.
Proof.
  pose proof (dataLen_range h) as Hr.
  pose proof (Align_8_bounds (dataLen h) (proj1 Hr)). lia.
Qed.

Lemma u64_Align_dataLen (h : ringbufHeader) :
  u64 (Align (dataLen h) 8) = Align (dataLen h) 8.
Proof. apply u64_small. pose proof (Align_dataLen_range h). lia. Qed.

Lemma s_len_sampleBuffer (rec : Record_) (h : ringbufHeader) :
  s_len (sampleBuffer rec h) = Z.to_nat (Align (dataLen h) 8).
Proof.
  unfold sampleBuffer. rewrite u64_Align_dataLen.
  now destruct (_ <? _).
Qed.

Section Committed.
Variable rd : ringbufEventRing.
Variable rec : Record_.
Variable h : ringbufHeader.
Hypothesis Hcap : 0 < capacity rd.
Hypothesis Hprod : 0 <= prod_pos rd < 2 ^ 64.
Hypothesis Hhdr : readHeaderAt rd (cons_pos rd) = Some h.
Hypothesis Hbusy : isBusy h = false.
Hypothesis Hdisc : isDiscard h = false.
Hypothesis Hfit : Align (dataLen h) 8 <= capacity rd.

Let aligned : nat := Z.to_nat (Align (dataLen h) 8).
Let c8 : Z := u64 (cons_pos rd + ringbufHeaderSize).
Let next : Z := u64 (cons_pos rd + (ringbufHeaderSize + Align (dataLen h) 8)).

Lemma readRecord_unfold :
    readRecord rd rec =
    (let '(rd', raw, _, err) := ReadFull (set_cons rd c8) (sampleBuffer rec h) in
     match err with
     | Some e =>
       (rd', mkRecord raw (Remaining rec), Some (Errorf "read sample" e))
     | None =>
       let rd' := storeConsumer rd' in
       (rd', mkRecord (reslice raw (Z.to_nat (dataLen h))) (remaining rd'), None)
     end).
  Proof.
    unfold readRecord. rewrite readHeader_loadConsumer, Hhdr, Hbusy, Hdisc.
    reflexivity.
  Qed.

  (** The whole payload is published: the record is returned. *)
Lemma readRecord_committed :
    Z.of_nat aligned <= u64 (prod_pos rd - c8) ->
    readRecord rd rec =
    (let rd' := mkRing (data rd) (prod_pos rd) next next in
     (rd',
      mkRecord
        (mkSlice (copyBytes rd c8 aligned ++ drop aligned (s_arr (sampleBuffer rec h)))
                 (Z.to_nat (dataLen h)))
        (remaining rd'),
      None)).
  Proof.
    intros Hpub. rewrite readRecord_unfold.
    pose proof (Align_dataLen_range h) as Hr.
    assert (Hn : readable (set_cons rd c8) aligned = aligned).
    { unfold readable. cbn [set_cons prod_pos cons]. lia. }
    rewrite ReadFull_eq; rewrite ?s_len_sampleBuffer; fold aligned;
      [|exact Hcap|exact Hprod|unfold aligned, capacity in *; cbn [set_cons data]; lia].
    rewrite Hn. rewrite Nat.ltb_irrefl. cbn [set_cons cons].
    rewrite copyBytes_set_cons.
    assert (Hnext : (if (aligned =? 0)%nat
                     then set_cons rd c8
                     else set_cons rd (u64 (c8 + Z.of_nat aligned)))
                    = set_cons rd next).
    { unfold next, c8. destruct (Nat.eqb_spec aligned 0) as [E|E].
      - f_equal. f_equal. unfold aligned in E. lia.
      - f_equal. rewrite u64_add_l. f_equal. unfold aligned. lia. }
    change (set_cons (set_cons rd c8) (u64 (c8 + Z.of_nat aligned)))
      with (set_cons rd (u64 (c8 + Z.of_nat aligned))).
    rewrite Hnext. reflexivity.
  Qed.

  (** Part of the payload is missing: the call fails. *)
Lemma readRecord_short :
    u64 (prod_pos rd - c8) < Z.of_nat aligned ->
    exists rd' rec' e,
      readRecord rd rec = (rd', rec', Some (Errorf "read sample" e)).
  Proof.
    intros Hshort. rewrite readRecord_unfold.
    pose proof (Align_dataLen_range h) as Hr.
    pose proof (u64_range (prod_pos rd - c8)) as Hu.
    assert (Hn : (readable (set_cons rd c8) aligned < aligned)%nat).
    { unfold readable. cbn [set_cons prod_pos cons]. lia. }
    rewrite ReadFull_eq; rewrite ?s_len_sampleBuffer; fold aligned;
      [|exact Hcap|exact Hprod|unfold aligned, capacity in *; cbn [set_cons data]; lia].
    apply Nat.ltb_lt in Hn. rewrite Hn. eauto.
  Qed.
End Committed.

(** ** A busy record *)

Lemma drainLoop_busy (h : ringbufHeader) (fuel : nat) :
  forall (rd : ringbufEventRing) (rec : Record_),
    readHeaderAt rd (cons_pos rd) = Some h ->
    isBusy h = true ->
    drainLoop fuel rd rec = None.
Proof.
  induction fuel as [|fuel IH]; intros rd rec Hh Hb; [reflexivity|].
  cbn [drainLoop]. rewrite (readRecord_busy_eq rd rec h Hh Hb).
  change (Error_eqb errBusy errBusy) with true. cbn [orb].
  apply IH; assumption.
Qed.

Lemma readLoop_busy (h : ringbufHeader) (rd : ringbufEventRing) :
  readHeaderAt rd (cons_pos rd) = Some h ->
  isBusy h = true ->
  forall (fuel : nat) (r : Reader) (rec : Record_) r' rec' err,
    ring r = Some rd ->
    readLoop fuel r rd rec = Returned (r', rec', err) ->
    err <> None /\ rec' = rec /\ ring r' = Some rd.
Proof.
  intros Hh Hb fuel r rec r' rec' err Hr H.
  destruct fuel as [|fuel]; [discriminate|].
  cbn [readLoop] in H. rewrite (drainLoop_busy h fuel rd rec Hh Hb) in H.
  destruct (haveData r); cbn [negb] in H; [discriminate|].
  destruct (poller_Wait (poller r) (deadline r)) as [[[p n] e]|]; [|discriminate].
  destruct (errors_Is_opt e ErrDeadlineExceeded && negb (isEmpty rd));
    [discriminate|].
  destruct e as [e|]; [|discriminate].
  injection H as <- <- <-. repeat split; [discriminate|exact Hr].
Qed.

(** C2: a header with the busy bit set makes readRecord answer Busy without
    storing the consumer position: the published position, the producer
    position and the data are as before, the caller's record is untouched,
    the next decode starts from the same position and sees the same header,
    and ReadInto never hands the record out while the bit is set: it can
    only come back with an error of the poller, the ring as it was. *)
Theorem busy_leaves_consumer_position (rd : ringbufEventRing) (rec : Record_)
    (h : ringbufHeader) :
  readHeaderAt rd (cons_pos rd) = Some h ->
  isBusy h = true ->
  exists rd',
    readRecord rd rec = (rd', rec, Some errBusy) /\
    consumerPosition rd' = consumerPosition rd /\
    prod_pos rd' = prod_pos rd /\ data rd' = data rd /\
    readHeaderAt rd' (consumerPosition rd') = Some h /\
    readRecord rd' rec = readRecord rd rec /\
    (forall fuel, drainLoop fuel rd rec = None) /\
    (forall fuel r rec0 r' rec' err,
        ring r = Some rd ->
        ReadInto fuel r rec0 = Returned (r', rec', err) ->
        err <> None /\ rec' = rec0 /\ ring r' = Some rd).
Proof.
  intros Hh Hb.
  exists (set_cons rd (u64 (cons_pos rd + ringbufHeaderSize))).
  split; [exact (readRecord_busy_eq rd rec h Hh Hb)|].
  repeat split; try reflexivity.
  - exact Hh.
  - intros fuel. exact (drainLoop_busy h fuel rd rec Hh Hb).
  - unfold ReadInto in H0. rewrite H in H0.
    eapply (readLoop_busy h rd Hh Hb); eassumption.
  - unfold ReadInto in H0. rewrite H in H0.
    eapply (readLoop_busy h rd Hh Hb); eassumption.
  - unfold ReadInto in H0. rewrite H in H0.
    eapply (readLoop_busy h rd Hh Hb); eassumption.
Qed.

Lemma busy_witness :
  exists rd',
    readRecord (sample_ring (2 ^ 31 + 3) abc 16) zero_Record
    = (rd', zero_Record, Some errBusy) /\
    consumerPosition rd' = 0.
Proof.
  destruct (busy_leaves_consumer_position
              (sample_ring (2 ^ 31 + 3) abc 16) zero_Record
              (mkHeader (2 ^ 31 + 3) 0) eq_refl eq_refl)
    as (rd' & H1 & H2 & _).
  exists rd'. split; [exact H1 | exact H2].
Defined.

(** ** Both flags set *)

(** C10: with the busy bit and the discard bit both set, readRecord answers
    Busy and leaves the consumer position unchanged, the busy check coming
    first; and the decoded payload length of any header has both flag bits
    masked off, being the low 30 bits of the length word. *)
Theorem busy_checked_before_discard (rd : ringbufEventRing) (rec : Record_)
    (h : ringbufHeader) :
  readHeaderAt rd (cons_pos rd) = Some h ->
  isBusy h = true ->
  isDiscard h = true ->
  (exists rd',
      readRecord rd rec = (rd', rec, Some errBusy) /\
      consumerPosition rd' = consumerPosition rd) /\
  (forall h' : ringbufHeader,
      dataLen h' = Len h' mod 2 ^ 30 /\
      Z.testbit (dataLen h') 31 = false /\
      Z.testbit (dataLen h') 30 = false /\
      0 <= dataLen h' < 2 ^ 30).
Proof.
  intros Hh Hb _. split.
  - eexists. split; [exact (readRecord_busy_eq rd rec h Hh Hb)|reflexivity].
  - intros h'. split; [apply dataLen_mod|].
    rewrite !dataLen_testbit. repeat split; try apply andb_false_r.
    all: apply dataLen_range.
Qed.

Lemma busy_checked_before_discard_witness :
  exists rd',
    readRecord (sample_ring (2 ^ 31 + 2 ^ 30 + 3) abc 16) zero_Record
    = (rd', zero_Record, Some errBusy) /\
    consumerPosition rd' = 0.
Proof.
  destruct (busy_checked_before_discard
              (sample_ring (2 ^ 31 + 2 ^ 30 + 3) abc 16) zero_Record
              (mkHeader (2 ^ 31 + 2 ^ 30 + 3) 0) eq_refl eq_refl eq_refl)
    as [H _].
  exact H.
Defined.

(** ** A discarded record *)

Lemma u64_sub_l (a b : Z) : u64 (u64 a - b) = u64 (a - b).
Proof. unfold u64. now rewrite Zminus_mod_idemp_l. Qed.

Lemma u64_sub_r (a b : Z) : u64 (a - u64 b) = u64 (a - b).
Proof. unfold u64. now rewrite Zminus_mod_idemp_r. Qed.

Lemma u64_advance (c k : Z) : 0 <= k < 2 ^ 64 -> u64 (u64 (c + k) - c) = k.
Proof.
  intros Hk. rewrite u64_sub_l. replace (c + k - c) with k by lia.
  now apply u64_small.
Qed.

(** C3: a header with the discard bit set and the busy bit clear makes
    readRecord answer Discarded; the caller's record is handed back as it
    was, so no payload is returned and none is copied; the ring's data is
    untouched; the stored consumer position moves forward by exactly
    8 + align_up(len, 8) bytes (in 64-bit arithmetic), and the loop of
    ReadInto carries on from there. *)
Theorem discard_skips_record (rd : ringbufEventRing) (rec : Record_)
    (h : ringbufHeader) :
  readHeaderAt rd (cons_pos rd) = Some h ->
  isBusy h = false ->
  isDiscard h = true ->
  exists rd',
    readRecord rd rec = (rd', rec, Some errDiscard) /\
    data rd' = data rd /\ prod_pos rd' = prod_pos rd /\
    consumerPosition rd' = u64 (consumerPosition rd + (8 + Align (dataLen h) 8)) /\
    u64 (consumerPosition rd' - consumerPosition rd) = 8 + Align (dataLen h) 8 /\
    (forall fuel, drainLoop (S fuel) rd rec = drainLoop fuel rd' rec).
Proof.
  intros Hh Hb Hd. eexists. split; [exact (readRecord_discard_eq rd rec h Hh Hb Hd)|].
  cbn zeta. repeat split.
  - apply u64_advance. pose proof (Align_dataLen_range h).
    unfold ringbufHeaderSize. lia.
  - intros fuel. cbn [drainLoop].
    rewrite (readRecord_discard_eq rd rec h Hh Hb Hd). reflexivity.
Qed.

Lemma discard_skips_record_witness :
  exists rd',
    readRecord (sample_ring (2 ^ 30 + 3) abc 16) zero_Record
    = (rd', zero_Record, Some errDiscard) /\
    consumerPosition rd' = 16.
Proof.
  destruct (discard_skips_record
              (sample_ring (2 ^ 30 + 3) abc 16) zero_Record
              (mkHeader (2 ^ 30 + 3) 0) eq_refl eq_refl eq_refl)
    as (rd' & H1 & _ & _ & H2 & _).
  exists rd'. split; [exact H1 | exact H2].
Defined.

(** ** A committed record *)

Lemma ReadFull_nothing (rd : ringbufEventRing) (buf : slice) :
  s_len buf = 0%nat -> ReadFull rd buf = (rd, buf, 0%nat, None).
Proof. intros H. unfold ReadFull. rewrite H. reflexivity. Qed.

Lemma published_past_header (rd : ringbufEventRing) (k : Z) :
  0 <= k ->
  ringbufHeaderSize + k <= u64 (prod_pos rd - cons_pos rd) ->
  k <= u64 (prod_pos rd - u64 (cons_pos rd + ringbufHeaderSize)).
Proof.
  unfold ringbufHeaderSize. intros Hk Hpub.
  pose proof (u64_range (prod_pos rd - cons_pos rd)) as Hr.
  rewrite u64_sub_r.
  replace (prod_pos rd - (cons_pos rd + 8)) with (prod_pos rd - cons_pos rd - 8) by lia.
  rewrite <- u64_sub_l. rewrite u64_small by lia. lia.
Qed.

(** C4: a record with both flags clear that readRecord decodes successfully
    comes back with its payload cut to exactly len bytes, the bytes that
    follow the header without the alignment padding; the consumer position
    is stored as the old one plus 8 + align_up(len, 8); Remaining is the
    ring's remaining byte count taken right after that store.  And the
    decode does succeed once the producer has published the whole record. *)
Theorem committed_record_returned (rd : ringbufEventRing) (rec : Record_)
    (h : ringbufHeader) :
  0 < capacity rd ->
  0 <= prod_pos rd < 2 ^ 64 ->
  readHeaderAt rd (cons_pos rd) = Some h ->
  isBusy h = false ->
  isDiscard h = false ->
  Align (dataLen h) 8 <= capacity rd ->
  (forall rd' rec',
      readRecord rd rec = (rd', rec', None) ->
      slice_bytes (RawSample rec') =
        take (Z.to_nat (dataLen h))
             (copyBytes rd (u64 (consumerPosition rd + 8))
                        (Z.to_nat (Align (dataLen h) 8))) /\
      Z.of_nat (length (slice_bytes (RawSample rec'))) = dataLen h /\
      consumerPosition rd' = u64 (consumerPosition rd + (8 + Align (dataLen h) 8)) /\
      Remaining rec' = remainingBytes rd' /\
      data rd' = data rd /\ prod_pos rd' = prod_pos rd) /\
  (8 + Align (dataLen h) 8 <= u64 (prod_pos rd - consumerPosition rd) ->
   exists rd' rec', readRecord rd rec = (rd', rec', None)).
Proof.
  intros Hcap Hprod Hh Hb Hd Hfit.
  pose proof (dataLen_range h) as Hdl.
  pose proof (Align_8_bounds (dataLen h) (proj1 Hdl)) as Hal.
  split.
  - intros rd' rec' Hok.
    destruct (Z_le_gt_dec (Z.of_nat (Z.to_nat (Align (dataLen h) 8)))
                (u64 (prod_pos rd - u64 (cons_pos rd + ringbufHeaderSize))))
      as [Hpub|Hshort].
    + rewrite (readRecord_committed rd rec h Hcap Hprod Hh Hb Hd Hfit Hpub) in Hok.
      cbn zeta in Hok. injection Hok as <- <-.
      cbn [RawSample Remaining data prod_pos consumerPosition cons_pos].
      unfold slice_bytes. cbn [s_len s_arr].
      assert (Hlen : length (copyBytes rd (u64 (cons_pos rd + ringbufHeaderSize))
                               (Z.to_nat (Align (dataLen h) 8)))
                     = Z.to_nat (Align (dataLen h) 8))
        by (apply length_copyBytes; [exact Hcap|lia]).
      rewrite take_app_le by (rewrite Hlen; lia).
      repeat split; try reflexivity.
      rewrite length_take, Hlen. lia.
    + destruct (readRecord_short rd rec h Hcap Hprod Hh Hb Hd Hfit) as (a & b & e & He);
        [lia|]. rewrite He in Hok. discriminate.
  - intros Hpub. do 2 eexists.
    apply (readRecord_committed rd rec h Hcap Hprod Hh Hb Hd Hfit).
    rewrite Z2Nat.id by lia. apply published_past_header; [lia|exact Hpub].
Qed.

(** C9: a record of payload length 0 is read successfully, its payload is
    the empty byte sequence, and the consumer position moves by exactly 8,
    the header alone. *)
Theorem zero_length_record (rd : ringbufEventRing) (rec : Record_)
    (h : ringbufHeader) :
  readHeaderAt rd (cons_pos rd) = Some h ->
  isBusy h = false ->
  isDiscard h = false ->
  dataLen h = 0 ->
  exists rd' rec',
    readRecord rd rec = (rd', rec', None) /\
    slice_bytes (RawSample rec') = [] /\
    consumerPosition rd' = u64 (consumerPosition rd + 8) /\
    u64 (consumerPosition rd' - consumerPosition rd) = 8 /\
    data rd' = data rd /\ prod_pos rd' = prod_pos rd.
Proof.
  intros Hh Hb Hd Hz.
  rewrite (readRecord_unfold rd rec h Hh Hb Hd).
  rewrite ReadFull_nothing by (rewrite s_len_sampleBuffer, Hz; reflexivity).
  rewrite Hz. do 2 eexists. split; [reflexivity|].
  cbn [RawSample consumerPosition storeConsumer storeConsumerPosition set_cons
       cons cons_pos data prod_pos].
  repeat split.
  apply u64_advance. lia.
Qed.

Lemma committed_record_returned_witness :
  exists rd' rec',
    readRecord two_records zero_Record = (rd', rec', None) /\
    Remaining rec' = remainingBytes rd' /\
    consumerPosition rd' = 24.
Proof.
  assert (H1 : 0 < capacity two_records) by (vm_compute; reflexivity).
  assert (H2 : 0 <= prod_pos two_records < 2 ^ 64)
    by (vm_compute; split; [discriminate | reflexivity]).
  assert (H3 : readHeaderAt two_records (cons_pos two_records)
               = Some (mkHeader 10 0)) by (vm_compute; reflexivity).
  assert (H6 : Align (dataLen (mkHeader 10 0)) 8 <= capacity two_records)
    by (vm_compute; discriminate).
  assert (H7 : 8 + Align (dataLen (mkHeader 10 0)) 8
               <= u64 (prod_pos two_records - consumerPosition two_records))
    by (vm_compute; discriminate).
  destruct (committed_record_returned two_records zero_Record (mkHeader 10 0)
              H1 H2 H3 eq_refl eq_refl H6) as [Hall Hex].
  destruct (Hex H7) as (rd' & rec' & E).
  destruct (Hall rd' rec' E) as (_ & _ & Hc & Hr & _).
  exists rd', rec'. repeat split; [exact E | exact Hr | exact Hc].
Defined.

(** The design document's example in numbers: after the record of 10 bytes
    32 bytes remain, after the one of 20 bytes none. *)
Example remaining_after_each_record :
  let '(rd1, rec1, err1) := readRecord two_records zero_Record in
  let '(rd2, rec2, err2) := readRecord rd1 rec1 in
  (slice_bytes (RawSample rec1), Remaining rec1, err1) = (ten_bytes, 32, None) /\
  (slice_bytes (RawSample rec2), Remaining rec2, err2) = (twenty_bytes, 0, None) /\
  consumerPosition rd2 = 56.
Proof. vm_compute. repeat split. Qed.

Lemma zero_length_record_witness :
  exists rd' rec',
    readRecord (sample_ring 0 [] 8) zero_Record = (rd', rec', None) /\
    slice_bytes (RawSample rec') = [] /\
    consumerPosition rd' = 8.
Proof.
  destruct (zero_length_record (sample_ring 0 [] 8) zero_Record (mkHeader 0 0)
              eq_refl eq_refl eq_refl eq_refl)
    as (rd' & rec' & E & Hs & Hc & _).
  exists rd', rec'. repeat split; [exact E | exact Hs | exact Hc].
Defined.

(** ** Construction *)

Lemma pow2_land_pred (k : Z) : 0 <= k -> Z.land (2 ^ k) (2 ^ k - 1) = 0.
Proof.
  intros Hk. replace (2 ^ k - 1) with (Z.ones k) by (rewrite Z.ones_equiv; lia).
  rewrite Z.land_ones by lia. apply Z.mod_same. apply Z.pow_nonzero; lia.
Qed.

Lemma land_pred_pow2 (n : Z) :
  0 < n -> Z.land n (n - 1) = 0 -> is_power_of_two n.
Proof.
  intros Hn Hland. exists (Z.log2 n). split; [apply Z.log2_nonneg|].
  destruct (Z.log2_spec n Hn) as [Hlo Hhi].
  destruct (Z.eq_dec n (2 ^ Z.log2 n)) as [E|E]; [exact E|exfalso].
  assert (Hlog : Z.log2 (n - 1) = Z.log2 n).
  { apply Z.log2_unique; [apply Z.log2_nonneg|].
    lia. }
  assert (Hbit : Z.testbit (Z.land n (n - 1)) (Z.log2 n) = true).
  { pose proof (Z.pow_pos_nonneg 2 (Z.log2 n) ltac:(lia) (Z.log2_nonneg n)).
    rewrite Z.land_spec, Z.bit_log2 by lia.
    rewrite <- Hlog. rewrite Z.bit_log2 by lia. reflexivity. }
  rewrite Hland, Z.bits_0 in Hbit. discriminate.
Qed.

Lemma power_of_two_check (n : Z) :
  ((n =? 0) || negb (Z.land n (n - 1) =? 0)) = false <->
  (0 < n /\ is_power_of_two n) \/ (n < 0 /\ Z.land n (n - 1) = 0).
Proof.
  rewrite orb_false_iff, negb_false_iff, Z.eqb_neq, Z.eqb_eq. split.
  - intros [Hz Hl]. destruct (Z.lt_trichotomy n 0) as [H|[H|H]]; [right|lia|left].
    + now split.
    + split; [exact H|now apply land_pred_pow2].
  - intros [[Hn (k & Hk & ->)]|[Hn Hl]].
    + split; [lia|now apply pow2_land_pred].
    + split; [lia|exact Hl].
Qed.

Lemma MapType_eqb_RingBuf (t : MapType) :
  MapType_eqb t RingBuf = true <-> t = RingBuf.
Proof. destruct t; cbn; split; congruence. Qed.

(** An error from [NewReader] never comes with a Reader, and every poller
    it created on the way has been closed again. *)
Lemma NewReader_failure_releases (env : Env) (m : Map) (sys sys' : Sys)
    (r : option Reader) (err : Error) :
  NewReader env m sys = (sys', r, Some err) ->
  r = None /\
  count_ev EvRingMap sys' = count_ev EvRingMap sys /\
  (count_ev EvEpollCreate sys' - count_ev EvEpollClose sys' =
   count_ev EvEpollCreate sys - count_ev EvEpollClose sys)%nat.
Proof.
  unfold NewReader, epoll_New, poller_Add, newRingBufEventRing, poller_Close.
  destruct (negb (MapType_eqb (map_Type m) RingBuf));
    [intros H; injection H as <- <- _; auto|].
  destruct (_ || _); [intros H; injection H as <- <- _; auto|].
  destruct (env_epoll_New env); [intros H; injection H as <- <- _; auto|].
  cbn [p_closed pending].
  destruct (env_poller_Add env).
  { intros H; injection H as <- <- _. unfold count_ev. cbn. repeat split; lia. }
  destruct (env_mmap env); [|discriminate].
  intros H; injection H as <- <- _. unfold count_ev. cbn. repeat split; lia.
Qed.

(** C8: NewReader fails, handing back no Reader, whenever the backing map is
    not of the ring-buffer kind or its capacity is zero or not a power of
    two; in these cases the system is left exactly as it was: no poller has
    been created and no region mapped. *)
Theorem NewReader_rejects_bad_map (env : Env) (m : Map) (sys : Sys) :
  0 <= map_MaxEntries m < 2 ^ 32 ->
  map_Type m <> RingBuf \/ map_MaxEntries m = 0 \/
    ~ is_power_of_two (map_MaxEntries m) ->
  exists err, NewReader env m sys = (sys, None, Some err).
Proof.
  intros Hrange Hbad. unfold NewReader.
  destruct (MapType_eqb (map_Type m) RingBuf) eqn:Ht; cbn [negb]; [|eauto].
  apply MapType_eqb_RingBuf in Ht.
  unfold int_of_u32, u32. rewrite Z.mod_small by exact Hrange.
  destruct ((map_MaxEntries m =? 0) ||
            negb (Z.land (map_MaxEntries m) (map_MaxEntries m - 1) =? 0)) eqn:Hc;
    [eauto|].
  exfalso. apply power_of_two_check in Hc.
  destruct Hc as [[Hpos Hpow]|[Hneg _]]; [|lia].
  destruct Hbad as [Hbad|[Hbad|Hbad]]; [congruence|lia|auto].
Qed.

Lemma not_power_of_two_by_check (n : Z) :
  Z.land n (n - 1) <> 0 -> ~ is_power_of_two n.
Proof. intros Hl (k & Hk & ->). apply Hl. now apply pow2_land_pred. Qed.

Lemma NewReader_rejects_bad_map_witness :
  exists err, NewReader quiet_env map_of_100 [] = ([], None, Some err).
Proof.
  apply (NewReader_rejects_bad_map quiet_env map_of_100 []).
  - cbn. lia.
  - right. right. apply not_power_of_two_by_check. vm_compute. discriminate.
Defined.

(** ** Closing *)


Lemma Close_no_error (r : Reader) (sys : Sys) :
  exists r' sys',
    Close r sys = (r', sys', None) /\ p_closed (poller r') = true /\
    bufferSize r' = bufferSize r /\
    (count_ev EvRingUnmap sys' + ring_live r' =
     count_ev EvRingUnmap sys + ring_live r)%nat /\
    (p_closed (poller r) = false -> ring r' = None) /\
    (p_closed (poller r) = true -> r' = r /\ sys' = sys).
Proof.
  unfold Close, poller_Close, ring_live. destruct r as [[c pe] rg hd dl bs].
  cbn [poller p_closed pending ring set_poller set_ring haveData deadline bufferSize].
  destruct c.
  - do 2 eexists. cbn. repeat split; try reflexivity. discriminate.
  - destruct rg as [rd|]; do 2 eexists; cbn; repeat split; try reflexivity;
      try discriminate.
    all: unfold count_ev; cbn; lia.
Qed.

Lemma readLoop_keeps_ring (fuel : nat) :
  forall (r : Reader) (rd : ringbufEventRing) (rec : Record_) r' rec' err,
    ring r = Some rd ->
    readLoop fuel r rd rec = Returned (r', rec', err) ->
    ring_live r' = 1%nat /\ p_closed (poller r') = p_closed (poller r) /\
    bufferSize r' = bufferSize r /\ deadline r' = deadline r.
Proof.
  induction fuel as [|fuel IH]; intros r rd rec r' rec' err Hr H; [discriminate|].
  cbn [readLoop] in H.
  assert (Hgo : forall r1 : Reader,
             ring r1 = Some rd -> p_closed (poller r1) = p_closed (poller r) ->
             bufferSize r1 = bufferSize r -> deadline r1 = deadline r ->
             match drainLoop fuel rd rec with
             | Some (rd', rec'0, Break) =>
               readLoop fuel
                 (set_haveData (set_ring (set_haveData r1 true) (Some rd')) false)
                 rd' rec'0
             | Some (rd', rec'0, Return err0) =>
               Returned (set_ring (set_haveData r1 true) (Some rd'), rec'0, err0)
             | None => Spinning
             end = Returned (r', rec', err) ->
             ring_live r' = 1%nat /\ p_closed (poller r') = p_closed (poller r) /\
             bufferSize r' = bufferSize r /\ deadline r' = deadline r).
  { intros r1 Hr1 Hp1 Hb1 Hd1 H1.
    destruct (drainLoop fuel rd rec) as [[[rd' rec1] [|e]]|]; [| |discriminate].
    - apply IH in H1; [|reflexivity]. cbn in H1. intuition congruence.
    - injection H1 as <- <- <-. cbn. auto. }
  destruct (haveData r); cbn [negb] in H.
  - apply (Hgo r); auto.
  - unfold poller_Wait in H. destruct (p_closed (poller r)) eqn:Hc.
    + cbn in H. injection H as <- <- <-. unfold ring_live. cbn. rewrite Hr. auto.
    + destruct (pending (poller r)) as [|[e|] rest]; [discriminate| |].
      * destruct (errors_Is_opt (Some e) ErrDeadlineExceeded && negb (isEmpty rd)).
        -- apply (Hgo (set_poller r (mkPoller false rest))); auto.
        -- injection H as <- <- <-. unfold ring_live. cbn. rewrite Hr. auto.
      * cbn [errors_Is_opt andb] in H.
        apply (Hgo (set_poller r (mkPoller false rest))); auto.
Qed.

Lemma ring_live_None (r : Reader) : ring_live r = 0%nat <-> ring r = None.
Proof. unfold ring_live. destruct (ring r); split; congruence. Qed.

Lemma reader_ok_live (r : Reader) :
  reader_ok r <-> (p_closed (poller r) = true <-> ring_live r = 0%nat).
Proof. unfold reader_ok. now rewrite ring_live_None. Qed.

Lemma ReadInto_keeps (fuel : nat) (r : Reader) (rec : Record_) r' rec' err :
  ReadInto fuel r rec = Returned (r', rec', err) ->
  ring_live r' = ring_live r /\ p_closed (poller r') = p_closed (poller r) /\
  bufferSize r' = bufferSize r.
Proof.
  unfold ReadInto. destruct (ring r) as [rd|] eqn:Hr.
  - intros H. apply readLoop_keeps_ring with (rd := rd) in H; [|exact Hr].
    unfold ring_live at 2. rewrite Hr. tauto.
  - intros H. injection H as <- <- <-. auto.
Qed.

Lemma run_op_keeps (fuel : nat) (op : Op) (r : Reader) (sys : Sys) r' sys' res :
  run_op fuel op (r, sys) = Returned (r', sys', res) ->
  (count_ev EvRingUnmap sys' + ring_live r' =
   count_ev EvRingUnmap sys + ring_live r)%nat /\
  (reader_ok r -> reader_ok r') /\
  (Closed r -> Closed r' /\ sys' = sys) /\
  bufferSize r' = bufferSize r.
Proof.
  rewrite !reader_ok_live. unfold Closed. rewrite <- !ring_live_None.
  destruct op as [|rec|t| |]; cbn [run_op].
  - unfold Read. destruct (ReadInto fuel r zero_Record) as [[[r1 rec1] e1]| |] eqn:E;
      [|discriminate|discriminate].
    intros H. injection H as <- <- <-. apply ReadInto_keeps in E.
    destruct E as (-> & -> & ->). tauto.
  - destruct (ReadInto fuel r rec) as [[[r1 rec1] e1]| |] eqn:E;
      [|discriminate|discriminate].
    intros H. injection H as <- <- <-. apply ReadInto_keeps in E.
    destruct E as (-> & -> & ->). tauto.
  - intros H. injection H as <- <- <-. unfold ring_live. cbn. tauto.
  - intros H. injection H as <- <- <-. tauto.
  - destruct (Close_no_error r sys) as (r1 & sys1 & E & Hc & Hb & Hn & Ho & Hcl).
    rewrite E. intros H. injection H as <- <- <-.
    rewrite <- ring_live_None in Ho.
    split; [exact Hn|]. split; [|split; [|exact Hb]].
    + intros Hok. destruct (p_closed (poller r)) eqn:Hp.
      * destruct (Hcl eq_refl) as [-> ->]. rewrite Hp. exact Hok.
      * rewrite Hc, (Ho eq_refl). tauto.
    + intros [Hl Hp]. destruct (Hcl Hp) as [-> ->]. auto.
Qed.

Lemma run_ops_keeps (fuel : nat) (ops : list Op) :
  forall (r : Reader) (sys : Sys) r' sys',
    run_ops fuel ops (r, sys) = Returned (r', sys') ->
    (count_ev EvRingUnmap sys' + ring_live r' =
     count_ev EvRingUnmap sys + ring_live r)%nat /\
    (reader_ok r -> reader_ok r') /\
    (Closed r -> Closed r' /\ sys' = sys).
Proof.
  induction ops as [|op ops IH]; intros r sys r' sys' H; cbn [run_ops] in H.
  - injection H as <- <-. auto.
  - destruct (run_op fuel op (r, sys)) as [[[r1 sys1] res]| |] eqn:E;
      [|discriminate|discriminate].
    apply run_op_keeps in E. apply IH in H.
    destruct E as (E1 & E2 & E3 & _), H as (H1 & H2 & H3).
    split; [lia|]. split; [auto|].
    intros Hc. destruct (E3 Hc) as [Hc1 ->]. auto.
Qed.

(** C7: Close on a Reader that is already closed returns no error and
    changes nothing; and whatever operations are run on a Reader, its ring
    is torn down at most once. *)
Theorem Close_again_no_error (fuel : nat) (ops : list Op) (r0 : Reader)
    (sys0 : Sys) (r : Reader) (sys : Sys) :
  reader_ok r0 ->
  run_ops fuel ops (r0, sys0) = Returned (r, sys) ->
  (ring r = None -> Close r sys = (r, sys, None)) /\
  (count_ev EvRingUnmap sys <= count_ev EvRingUnmap sys0 + 1)%nat.
Proof.
  intros Hok Hrun. apply run_ops_keeps in Hrun. destruct Hrun as (Hn & Hk & _).
  split.
  - intros Hnone. specialize (Hk Hok). unfold reader_ok in Hk.
    destruct (Close_no_error r sys) as (r1 & sys1 & E & _ & _ & _ & _ & Hcl).
    destruct (Hcl (proj2 Hk Hnone)) as [-> ->]. exact E.
  - assert (ring_live r0 <= 1)%nat by (unfold ring_live; destruct (ring r0); lia).
    lia.
Qed.

Lemma Close_again_no_error_witness :
  Close (fst closed_sample) (snd closed_sample)
  = (fst closed_sample, snd closed_sample, None) /\
  (count_ev EvRingUnmap (snd closed_sample) <= 1)%nat.
Proof.
  assert (Hok : reader_ok (reader_on (empty_ring 32 0) []))
    by (unfold reader_ok; cbn; split; discriminate).
  destruct (Close_again_no_error 1 [OpClose] (reader_on (empty_ring 32 0) []) []
              (fst closed_sample) (snd closed_sample) Hok eq_refl) as [H1 H2].
  split; [exact (H1 eq_refl) | exact H2].
Defined.




(** ** Deadlines *)

Lemma readLoop_have_data (fuel : nat) (r : Reader) (rd : ringbufEventRing)
    (rec : Record_) :
  haveData r = true ->
  readLoop (S fuel) r rd rec =
  match drainLoop fuel rd rec with
  | None => Spinning
  | Some (rd', rec', Return err) =>
    Returned (set_ring (set_haveData r true) (Some rd'), rec', err)
  | Some (rd', rec', Break) =>
    readLoop fuel (set_haveData (set_ring (set_haveData r true) (Some rd')) false)
             rd' rec'
  end.
Proof. intros H. cbn [readLoop]. rewrite H. reflexivity. Qed.

Lemma readLoop_wait (fuel : nat) (r : Reader) (rd : ringbufEventRing)
    (rec : Record_) (w : option Error) (rest : list (option Error)) :
  haveData r = false ->
  p_closed (poller r) = false ->
  pending (poller r) = w :: rest ->
  readLoop (S fuel) r rd rec =
  let r1 := set_poller r (mkPoller false rest) in
  match (if errors_Is_opt w ErrDeadlineExceeded && negb (isEmpty rd)
         then None else w) with
  | Some e => Returned (r1, rec, Some e)
  | None => readLoop (S fuel) (set_haveData r1 true) rd rec
  end.
Proof.
  intros Hh Hc Hp. cbn [readLoop]. rewrite Hh. cbn [negb].
  unfold poller_Wait. rewrite Hc, Hp.
  destruct w as [e|]; cbn [errors_Is_opt andb].
  - destruct (errors_Is e ErrDeadlineExceeded && negb (isEmpty rd)); reflexivity.
  - reflexivity.
Qed.

Lemma drainLoop_committed (fuel : nat) (rd : ringbufEventRing) (rec : Record_)
    rd' rec' :
  readRecord rd rec = (rd', rec', None) ->
  drainLoop (S fuel) rd rec = Some (rd', rec', Return None).
Proof. intros H. cbn [drainLoop]. now rewrite H. Qed.

(** C5: when the poller's wait ends with a deadline-exceeded error, ReadInto
    hands it to the caller only if the re-check finds the ring empty; with a
    non-empty ring the error is dropped and ReadInto goes on as it does with
    data known to be there, draining the ring and returning the record that
    readRecord decodes.  Any other error of the poller is returned as it
    is. *)
Theorem deadline_surfaces_only_when_empty (r : Reader) (rd : ringbufEventRing)
    (rec : Record_) (e : Error) (rest : list (option Error)) :
  ring r = Some rd ->
  haveData r = false ->
  p_closed (poller r) = false ->
  pending (poller r) = Some e :: rest ->
  let r1 := set_poller r (mkPoller false rest) in
  (errors_Is e ErrDeadlineExceeded = true -> isEmpty rd = true ->
   forall fuel, ReadInto (S fuel) r rec = Returned (r1, rec, Some e)) /\
  (errors_Is e ErrDeadlineExceeded = true -> isEmpty rd = false ->
   (forall fuel,
       ReadInto (S fuel) r rec = ReadInto (S fuel) (set_haveData r1 true) rec) /\
   (forall rd' rec',
       readRecord rd rec = (rd', rec', None) ->
       forall fuel,
         ReadInto (S (S fuel)) r rec
         = Returned (set_ring (set_haveData r1 true) (Some rd'), rec', None))) /\
  (errors_Is e ErrDeadlineExceeded = false ->
   forall fuel, ReadInto (S fuel) r rec = Returned (r1, rec, Some e)).
Proof.
  intros Hr Hh Hc Hp r1. unfold ReadInto. rewrite Hr.
  change (ring (set_haveData r1 true)) with (ring r). rewrite Hr.
  split; [|split].
  - intros He Hem fuel. rewrite (readLoop_wait fuel r rd rec _ _ Hh Hc Hp).
    cbn [errors_Is_opt]. rewrite He, Hem. reflexivity.
  - intros He Hem.
    assert (Hgo : forall fuel,
               readLoop (S fuel) r rd rec
               = readLoop (S fuel) (set_haveData r1 true) rd rec).
    { intros fuel. rewrite (readLoop_wait fuel r rd rec _ _ Hh Hc Hp).
      cbn [errors_Is_opt]. rewrite He, Hem. reflexivity. }
    split; [exact Hgo|].
    intros rd' rec' Hok fuel. rewrite Hgo.
    rewrite readLoop_have_data by reflexivity.
    rewrite (drainLoop_committed fuel rd rec rd' rec' Hok). reflexivity.
  - intros He fuel. rewrite (readLoop_wait fuel r rd rec _ _ Hh Hc Hp).
    cbn [errors_Is_opt]. rewrite He. reflexivity.
Qed.

Lemma deadline_surfaces_only_when_empty_witness :
  ReadInto 1 (reader_on (empty_ring 32 0) [Some ErrDeadlineExceeded]) zero_Record
  = Returned (reader_on (empty_ring 32 0) [], zero_Record,
              Some ErrDeadlineExceeded) /\
  (exists r' rec',
      ReadInto 2 (reader_on two_records [Some ErrDeadlineExceeded]) zero_Record
      = Returned (r', rec', None) /\
      slice_bytes (RawSample rec') = ten_bytes).
Proof.
  split.
  - destruct (deadline_surfaces_only_when_empty
                (reader_on (empty_ring 32 0) [Some ErrDeadlineExceeded])
                (empty_ring 32 0) zero_Record ErrDeadlineExceeded []
                eq_refl eq_refl eq_refl eq_refl) as (H & _ & _).
    exact (H eq_refl eq_refl 0%nat).
  - destruct (deadline_surfaces_only_when_empty
                (reader_on two_records [Some ErrDeadlineExceeded])
                two_records zero_Record ErrDeadlineExceeded []
                eq_refl eq_refl eq_refl eq_refl) as (_ & H & _).
    destruct (H eq_refl eq_refl) as [_ H2].
    assert (E : readRecord two_records zero_Record
                = (fst (fst (readRecord two_records zero_Record)),
                   snd (fst (readRecord two_records zero_Record)), None))
      by (vm_compute; reflexivity).
    do 2 eexists. split; [exact (H2 _ _ E 0%nat)|].
    vm_compute. reflexivity.
Defined.

(** ** The producer's writes *)

Lemma length_write_bytes (bs : list byte) :
  forall (d : list byte) (pos : Z), length (write_bytes d pos bs) = length d.
Proof.
  induction bs as [|b bs IH]; intros d pos; cbn [write_bytes]; [reflexivity|].
  rewrite IH. apply length_insert.
Qed.

Lemma mod_diff_zero (q pos c : Z) :
  0 < c -> ((q - pos) mod c = 0 <-> q mod c = pos mod c).
Proof.
  intros Hc. split; intros H.
  - replace q with (pos + (q - pos)) by lia.
    rewrite <- Zplus_mod_idemp_r, H, Z.add_0_r. reflexivity.
  - rewrite Zminus_mod, H, Z.sub_diag. apply Z.mod_0_l. lia.
Qed.

Lemma mod_diff_pred (q pos c : Z) :
  0 < c ->
  (q - (pos + 1)) mod c =
  if (q - pos) mod c =? 0 then c - 1 else (q - pos) mod c - 1.
Proof.
  intros Hc. pose proof (Z.mod_pos_bound (q - pos) c Hc) as Hk.
  replace (q - (pos + 1)) with ((q - pos) - 1) by lia.
  rewrite <- Zminus_mod_idemp_l.
  destruct (Z.eqb_spec ((q - pos) mod c) 0) as [E|E].
  - rewrite E. replace (0 - 1) with (c - 1 + (-1) * c) by lia.
    rewrite Z.mod_add by lia. apply Z.mod_small. lia.
  - apply Z.mod_small. lia.
Qed.

Lemma lookup_write_bytes (bs : list byte) :
  forall (d : list byte) (pos q : Z),
    0 < Z.of_nat (length d) ->
    Z.of_nat (length bs) <= Z.of_nat (length d) ->
    write_bytes d pos bs !! Z.to_nat (q mod Z.of_nat (length d)) =
    if (q - pos) mod Z.of_nat (length d) <? Z.of_nat (length bs)
    then bs !! Z.to_nat ((q - pos) mod Z.of_nat (length d))
    else d !! Z.to_nat (q mod Z.of_nat (length d)).
Proof.
  induction bs as [|b bs IH]; intros d pos q Hc Hlen.
  - cbn [write_bytes length].
    pose proof (Z.mod_pos_bound (q - pos) _ Hc).
    destruct (Z.ltb_spec ((q - pos) mod Z.of_nat (length d)) (Z.of_nat 0)); [lia|done].
  - cbn [write_bytes]. set (c := Z.of_nat (length d)) in *.
    pose proof (Z.mod_pos_bound (q - pos) c Hc) as Hk.
    pose proof (Z.mod_pos_bound q c Hc) as Hq.
    pose proof (Z.mod_pos_bound pos c Hc) as Hp.
    assert (Hlen' : Z.of_nat (length (b :: bs)) = Z.of_nat (length bs) + 1)
      by (cbn [length]; lia).
    specialize (IH (<[Z.to_nat (pos mod c) := b]> d) (pos + 1) q).
    rewrite length_insert in IH. fold c in IH.
    rewrite IH by lia. clear IH.
    rewrite mod_diff_pred by exact Hc.
    destruct (Z.eqb_spec ((q - pos) mod c) 0) as [E|E].
    + rewrite E. apply mod_diff_zero in E; [|exact Hc].
      destruct (Z.ltb_spec (c - 1) (Z.of_nat (length bs))); [lia|].
      destruct (Z.ltb_spec 0 (Z.of_nat (length (b :: bs)))); [|lia].
      rewrite E. rewrite list_lookup_insert_eq by (unfold c in *; lia).
      reflexivity.
    + destruct (Z.ltb_spec ((q - pos) mod c - 1) (Z.of_nat (length bs)));
        destruct (Z.ltb_spec ((q - pos) mod c) (Z.of_nat (length (b :: bs))));
        try lia.
      * replace (Z.to_nat ((q - pos) mod c))
          with (S (Z.to_nat ((q - pos) mod c - 1))) by lia.
        reflexivity.
      * apply list_lookup_insert_ne.
        rewrite mod_diff_zero in E by exact Hc. lia.
Qed.

(** ** Frames *)

Lemma length_frame (p : list byte) :
  Z.of_nat (length (frame p)) =
  ringbufHeaderSize + Align (Z.of_nat (length p)) 8.
Proof.
  unfold frame, ringbufHeaderSize.
  pose proof (Align_8_bounds (Z.of_nat (length p)) ltac:(lia)).
  rewrite !length_app, !length_le_split, length_replicate. lia.
Qed.

Lemma frames_cons (p : list byte) (ps : list (list byte)) :
  frames (p :: ps) = frame p ++ frames ps.
Proof. reflexivity. Qed.

Lemma frames_snoc (ps : list (list byte)) (p : list byte) :
  frames (ps ++ [p]) = frames ps ++ frame p.
Proof.
  unfold frames. rewrite map_app, concat_app. cbn [map concat].
  now rewrite app_nil_r.
Qed.

Lemma decodeHeader_frame (p rest : list byte) :
  Z.of_nat (length p) < 2 ^ 32 ->
  decodeHeader (take 8 (frame p ++ rest)) = mkHeader (Z.of_nat (length p)) 0.
Proof.
  intros Hlen. unfold frame, decodeHeader.
  set (len := Z.of_nat (length p)) in *.
  set (tail := p ++ replicate (Z.to_nat (Align len 8 - len)) Byte.x00).
  assert (E : take 8 ((le_split 4 len ++ le_split 4 0 ++ tail) ++ rest)
              = le_split 4 len ++ le_split 4 0).
  { rewrite <- !app_assoc. rewrite (app_assoc (le_split 4 len)).
    apply take_app_length'. rewrite length_app, !length_le_split. reflexivity. }
  rewrite E.
  rewrite take_app_length' by (now rewrite length_le_split).
  rewrite drop_app_length' by (now rewrite length_le_split).
  rewrite take_ge by (rewrite length_le_split; lia).
  rewrite !le_combine_split. f_equal.
  apply Z.mod_small. unfold len. change (Z.of_nat 4 * 8) with 32. lia.
Qed.

Lemma payload_of_frame (p rest : list byte) :
  take (length p) (drop 8 (frame p ++ rest)) = p.
Proof.
  unfold frame. rewrite <- !app_assoc. rewrite (app_assoc (le_split 4 _)).
  rewrite drop_app_length' by (rewrite length_app, !length_le_split; reflexivity).
  now rewrite take_app_length.
Qed.

(** ** The ring as a queue of committed records *)

Lemma capacity_divides (c : Z) :
  is_power_of_two c -> c < 2 ^ 32 -> 0 < c /\ (c | 2 ^ 64).
Proof.
  intros (k & Hk & ->) Hlt. split; [apply Z.pow_pos_nonneg; lia|].
  assert (k < 32) by (apply (Z.pow_lt_mono_r_iff 2); lia).
  exists (2 ^ (64 - k)). rewrite <- Z.pow_add_r by lia. f_equal. lia.
Qed.

Lemma copyBytes_u64 (rd : ringbufEventRing) (pos : Z) (n : nat) :
  (capacity rd | 2 ^ 64) -> copyBytes rd (u64 pos) n = copyBytes rd pos n.
Proof. intros Hd. unfold copyBytes, u64. now rewrite Z.mod_mod_divide. Qed.

Lemma small_testbit (a n i : Z) :
  0 <= a < 2 ^ n -> 0 <= n <= i -> Z.testbit a i = false.
Proof.
  intros Ha Hn. rewrite <- (Z.mod_small a (2 ^ n)) by exact Ha.
  apply Z.mod_pow2_bits_high. lia.
Qed.

Lemma length_frame_nat (p : list byte) :
  length (frame p) = (8 + Z.to_nat (Align (Z.of_nat (length p)) 8))%nat.
Proof.
  pose proof (length_frame p) as H. unfold ringbufHeaderSize in H.
  pose proof (Align_8_bounds (Z.of_nat (length p)) ltac:(lia)). lia.
Qed.

Lemma ring_holds_nil_empty (rd : ringbufEventRing) :
  ring_holds rd [] -> isEmpty rd = true.
Proof.
  intros (_ & _ & _ & _ & HF & _). unfold isEmpty, remainingBytes.
  unfold loadProducerPosition, consumerPosition. rewrite HF. reflexivity.
Qed.

Lemma ring_holds_cons_nonempty (rd : ringbufEventRing) (p : list byte)
    (ps : list (list byte)) :
  ring_holds rd (p :: ps) -> isEmpty rd = false.
Proof.
  intros (_ & Hlt & _ & _ & HF & Hfit & _). unfold isEmpty, remainingBytes.
  unfold loadProducerPosition, consumerPosition. rewrite HF.
  rewrite frames_cons, length_app, length_frame_nat in *.
  unfold int_of_u64.
  destruct (Z.ltb_spec (Z.of_nat (8 + Z.to_nat (Align (Z.of_nat (length p)) 8)
                                  + length (frames ps))) (2 ^ 63)); [|lia].
  apply Z.eqb_neq. lia.
Qed.

(** The oldest record comes out, the rest stays. *)
Lemma ring_holds_read (rd : ringbufEventRing) (rec : Record_) (p : list byte)
    (ps : list (list byte)) :
  ring_holds rd (p :: ps) ->
  exists rd' rec',
    readRecord rd rec = (rd', rec', None) /\
    slice_bytes (RawSample rec') = p /\
    Remaining rec' = Z.of_nat (length (frames ps)) /\
    prod_pos rd' = prod_pos rd /\
    ring_holds rd' ps.
Proof.
  intros (Hpow & Hlt & Hprod & Hcons & HF & Hfit & Hwin & Hall).
  destruct (capacity_divides _ Hpow Hlt) as [Hcap Hdiv].
  apply Forall_cons in Hall. destruct Hall as [Hp Hps].
  set (len := Z.of_nat (length p)) in *.
  pose proof (Align_8_bounds len ltac:(lia)) as Hal.
  pose proof (length_frame_nat p) as Hfl. fold len in Hfl.
  rewrite frames_cons in *. rewrite length_app in *.
  set (F' := length (frames ps)) in *.
  set (h := mkHeader len 0).
  assert (Hdl : dataLen h = len).
  { rewrite dataLen_mod. apply Z.mod_small. cbn [Len]. lia. }
  assert (Hhdr : readHeaderAt rd (cons_pos rd) = Some h).
  { unfold readHeaderAt, loadProducerPosition.
    destruct (Z.eqb_spec (cons_pos rd) (prod_pos rd)) as [E|_].
    - rewrite E, Z.sub_diag in HF. unfold u64 in HF. rewrite Z.mod_0_l in HF; lia.
    - f_equal.
      rewrite (copyBytes_prefix rd Hcap (cons_pos rd) 8 (length (frame p) + F'))
        by lia.
      rewrite Hwin. apply decodeHeader_frame. fold len. lia. }
  assert (Hb : isBusy h = false)
    by (rewrite isBusy_testbit; apply (small_testbit len 30); cbn [Len]; lia).
  assert (Hd : isDiscard h = false)
    by (rewrite isDiscard_testbit; apply (small_testbit len 30); cbn [Len]; lia).
  assert (Hfit' : Align (dataLen h) 8 <= capacity rd) by (rewrite Hdl; lia).
  assert (Hpub : Z.of_nat (Z.to_nat (Align (dataLen h) 8)) <=
                 u64 (prod_pos rd - u64 (cons_pos rd + ringbufHeaderSize))).
  { rewrite Hdl, Z2Nat.id by lia. apply published_past_header; [lia|].
    rewrite HF. unfold ringbufHeaderSize. lia. }
  rewrite (readRecord_committed rd rec h Hcap Hprod Hhdr Hb Hd Hfit' Hpub).
  cbn zeta. rewrite Hdl.
  set (next := u64 (cons_pos rd + (ringbufHeaderSize + Align len 8))).
  assert (Hrem : u64 (prod_pos rd - next) = Z.of_nat F').
  { unfold next. rewrite u64_sub_r.
    replace (prod_pos rd - (cons_pos rd + (ringbufHeaderSize + Align len 8)))
      with (prod_pos rd - cons_pos rd - (ringbufHeaderSize + Align len 8)) by lia.
    rewrite <- u64_sub_l, HF.
    replace (Z.of_nat (length (frame p) + F') - (ringbufHeaderSize + Align len 8))
      with (Z.of_nat F') by (unfold ringbufHeaderSize; lia).
    apply u64_small. lia. }
  do 2 eexists. split; [reflexivity|]. split; [|split; [|split; [reflexivity|]]].
  - unfold slice_bytes. cbn [RawSample s_len s_arr].
    rewrite take_app_le by (rewrite length_copyBytes by (try exact Hcap; lia); lia).
    unfold ringbufHeaderSize. rewrite copyBytes_u64 by exact Hdiv.
    change (cons_pos rd + 8) with (cons_pos rd + Z.of_nat 8).
    rewrite (copyBytes_sub rd Hcap (cons_pos rd) 8 _ (length (frame p) + F'))
      by lia.
    rewrite Hwin, take_take, Nat.min_l by lia.
    unfold len. rewrite Nat2Z.id. apply payload_of_frame.
  - cbn [Remaining]. unfold remaining, remainingBytes, loadProducerPosition,
      consumerPosition. cbn [prod_pos cons_pos]. rewrite Hrem.
    unfold int_of_u64.
    destruct (Z.ltb_spec (Z.of_nat F') (2 ^ 63)); [reflexivity|lia].
  - unfold ring_holds. cbn [prod_pos cons_pos]. fold F'.
    change (capacity (mkRing (data rd) (prod_pos rd) next next))
      with (capacity rd).
    repeat split; try assumption; try lia; try apply u64_range.
    change (copyBytes (mkRing (data rd) (prod_pos rd) next next))
      with (copyBytes rd).
    unfold next. rewrite copyBytes_u64 by exact Hdiv.
    replace (ringbufHeaderSize + Align len 8) with (Z.of_nat (length (frame p)))
      by (rewrite Hfl; unfold ringbufHeaderSize; lia).
    rewrite (copyBytes_sub rd Hcap (cons_pos rd) _ F' (length (frame p) + F'))
      by lia.
    rewrite Hwin, drop_app_length. apply take_ge. unfold F'. lia.
Qed.

(** A new record goes behind the ones already there. *)
Lemma ring_holds_produce (rd rd' : ringbufEventRing) (ps : list (list byte))
    (p : list byte) :
  ring_holds rd ps ->
  produce rd p = Some rd' ->
  ring_holds rd' (ps ++ [p]).
Proof.
  intros (Hpow & Hlt & Hprod & Hcons & HF & Hfit & Hwin & Hall).
  destruct (capacity_divides _ Hpow Hlt) as [Hcap Hdiv].
  unfold produce. set (len := Z.of_nat (length p)).
  destruct (_ && _) eqn:Hc; [|discriminate].
  apply andb_true_iff in Hc. destruct Hc as [Hlen Hroom].
  apply Z.ltb_lt in Hlen. apply Z.leb_le in Hroom. rewrite HF in Hroom.
  intros H. apply (inj Some) in H. subst rd'.
  pose proof (length_frame p) as Hfl. fold len in Hfl.
  pose proof (Align_8_bounds len ltac:(lia)) as Hal.
  set (F := length (frames ps)) in *. set (f := length (frame p)) in *.
  set (d' := write_bytes (data rd) (prod_pos rd) (frame p)).
  set (rd' := mkRing d' (u64 (prod_pos rd + (ringbufHeaderSize + Align len 8)))
                     (cons_pos rd) (cons rd)).
  assert (Hcap' : capacity rd' = capacity rd).
  { unfold capacity, rd', d'. cbn [data]. now rewrite length_write_bytes. }
  assert (Hlenfs : length (frames (ps ++ [p])) = (F + f)%nat)
    by (rewrite frames_snoc, length_app; reflexivity).
  unfold ring_holds. rewrite Hlenfs, Hcap'. cbn [prod_pos cons_pos rd'].
  assert (Hmod : (prod_pos rd - cons_pos rd) mod capacity rd
                 = Z.of_nat F mod capacity rd).
  { rewrite <- HF. unfold u64. now rewrite Z.mod_mod_divide. }
  repeat split; try assumption; try lia; try apply u64_range.
  - rewrite u64_sub_l.
    replace (prod_pos rd + (ringbufHeaderSize + Align len 8) - cons_pos rd)
      with ((prod_pos rd - cons_pos rd) + (ringbufHeaderSize + Align len 8)) by lia.
    rewrite <- u64_add_l, HF. rewrite Nat2Z.inj_add, Hfl. apply u64_small. lia.
  - rewrite frames_snoc. apply list_eq. intros i.
    destruct (Nat.lt_ge_cases i (F + f)) as [Hi|Hi].
    2:{ rewrite !lookup_ge_None_2; [done| |].
        - rewrite length_app. fold F f. lia.
        - rewrite length_copyBytes; rewrite ?Hcap'; lia. }
    rewrite lookup_copyBytes by (rewrite ?Hcap'; lia).
    rewrite Hcap'. unfold rd' at 1. cbn [data]. unfold d', capacity.
    rewrite lookup_write_bytes; fold (capacity rd); try lia.
    replace (cons_pos rd + Z.of_nat i - prod_pos rd)
      with (Z.of_nat i - (prod_pos rd - cons_pos rd)) by lia.
    rewrite <- Zminus_mod_idemp_r, Hmod, Zminus_mod_idemp_r.
    destruct (Nat.lt_ge_cases i F) as [Hlo|Hhi].
    + replace (Z.of_nat i - Z.of_nat F)
        with (Z.of_nat i - Z.of_nat F + capacity rd + (-1) * capacity rd) by lia.
      rewrite Z.mod_add by lia. rewrite Z.mod_small by lia.
      destruct (Z.ltb_spec (Z.of_nat i - Z.of_nat F + capacity rd)
                  (Z.of_nat (length (frame p)))); [unfold f in *; lia|].
      rewrite lookup_app_l by (fold F; lia).
      rewrite <- Hwin. symmetry. apply lookup_copyBytes; [exact Hcap|lia|lia].
    + rewrite Z.mod_small by lia.
      destruct (Z.ltb_spec (Z.of_nat i - Z.of_nat F)
                  (Z.of_nat (length (frame p)))); [|unfold f in *; lia].
      rewrite lookup_app_r by (fold F; lia). fold F. f_equal. lia.
  - apply Forall_app. split; [exact Hall|]. apply Forall_singleton. exact Hlen.
Qed.

Lemma ring_holds_produce_all (ps : list (list byte)) :
  forall (rd rd' : ringbufEventRing) (qs : list (list byte)),
    ring_holds rd qs ->
    produce_all rd ps = Some rd' ->
    ring_holds rd' (qs ++ ps).
Proof.
  induction ps as [|p ps IH]; intros rd rd' qs Hh H; cbn [produce_all] in H.
  - injection H as <-. now rewrite app_nil_r.
  - destruct (produce rd p) as [rd1|] eqn:E; [|discriminate].
    replace (qs ++ p :: ps) with ((qs ++ [p]) ++ ps) by now rewrite <- app_assoc.
    eapply IH; [|exact H]. eapply ring_holds_produce; eassumption.
Qed.

Lemma ring_holds_empty (rd : ringbufEventRing) :
  is_power_of_two (capacity rd) -> capacity rd < 2 ^ 32 ->
  0 <= prod_pos rd < 2 ^ 64 -> cons_pos rd = prod_pos rd ->
  ring_holds rd [].
Proof.
  intros Hpow Hlt Hprod Hc. destruct (capacity_divides _ Hpow Hlt) as [Hcap _].
  unfold ring_holds. rewrite Hc, Z.sub_diag. cbn [frames map concat length].
  repeat split; try assumption; try lia. constructor.
Qed.

(** ** Draining the ring *)

Lemma Read_oldest (fuel : nat) (r : Reader) (rd : ringbufEventRing)
    (p : list byte) (ps : list (list byte)) :
  ring r = Some rd ->
  ring_holds rd (p :: ps) ->
  wakes r ->
  exists r' rd' rec',
    Read (S (S fuel)) r = Returned (r', rec', None) /\
    slice_bytes (RawSample rec') = p /\
    Remaining rec' = Z.of_nat (length (frames ps)) /\
    ring r' = Some rd' /\ prod_pos rd' = prod_pos rd /\
    ring_holds rd' ps /\ haveData r' = true.
Proof.
  intros Hr Hh Hw.
  destruct (ring_holds_read rd zero_Record p ps Hh)
    as (rd' & rec' & E & Hs & Hm & Hpp & Hh').
  pose proof (ring_holds_cons_nonempty rd p ps Hh) as Hne.
  assert (Hhave : forall r0 : Reader,
             haveData r0 = true ->
             readLoop (S (S fuel)) r0 rd zero_Record
             = Returned (set_ring (set_haveData r0 true) (Some rd'), rec', None)).
  { intros r0 H0. rewrite readLoop_have_data by exact H0.
    now rewrite (drainLoop_committed fuel rd zero_Record rd' rec' E). }
  unfold Read, ReadInto. rewrite Hr.
  destruct (haveData r) eqn:Hd.
  - rewrite Hhave by exact Hd.
    exists (set_ring (set_haveData r true) (Some rd')), rd', rec'.
    split; [reflexivity|]. do 2 (split; [assumption|]).
    split; [reflexivity|]. do 2 (split; [assumption|]). reflexivity.
  - destruct Hw as [Hw|(Hc & w & rest & Hp & Hwk)]; [congruence|].
    rewrite (readLoop_wait (S fuel) r rd zero_Record w rest Hd Hc Hp).
    cbn zeta.
    assert (Hgo : (if errors_Is_opt w ErrDeadlineExceeded && negb (isEmpty rd)
                   then None else w) = None).
    { destruct Hwk as [->|Hdl]; [reflexivity|]. now rewrite Hdl, Hne. }
    rewrite Hgo, Hhave by reflexivity.
    eexists _, rd', rec'.
    split; [reflexivity|]. do 2 (split; [assumption|]).
    split; [reflexivity|]. do 2 (split; [assumption|]). reflexivity.
Qed.

Lemma ring_holds_nil_drained (rd : ringbufEventRing) :
  ring_holds rd [] -> consumerPosition rd = prod_pos rd.
Proof.
  intros (_ & _ & Hprod & Hcons & HF & _).
  assert (Hz : u64 (prod_pos rd - cons_pos rd) = 0) by exact HF.
  unfold u64 in Hz. apply Z.mod_divide in Hz; [|lia].
  destruct Hz as [k Hk]. unfold consumerPosition. lia.
Qed.

Lemma drain_step (fuel : nat) (r : Reader) (rd : ringbufEventRing) :
  ring r = Some rd ->
  drain (S fuel) r =
  if isEmpty rd then Returned (r, [], None)
  else match Read fuel r with
       | Returned (r', rec, None) =>
         match drain fuel r' with
         | Returned (r'', samples, err) =>
           Returned (r'', slice_bytes (RawSample rec) :: samples, err)
         | Blocked => Blocked
         | Spinning => Spinning
         end
       | Returned (r', _, Some e) => Returned (r', [], Some e)
       | Blocked => Blocked
       | Spinning => Spinning
       end.
Proof. intros H. cbn [drain]. now rewrite H. Qed.

Lemma drain_holding (ps : list (list byte)) :
  forall (fuel : nat) (r : Reader) (rd : ringbufEventRing),
    ring r = Some rd ->
    ring_holds rd ps ->
    wakes r ->
    (length ps + 2 <= fuel)%nat ->
    exists r' rd',
      drain fuel r = Returned (r', ps, None) /\
      ring r' = Some rd' /\ isEmpty rd' = true /\
      consumerPosition rd' = prod_pos rd /\ prod_pos rd' = prod_pos rd.
Proof.
  induction ps as [|p ps IH]; intros fuel r rd Hr Hh Hw Hfuel.
  - destruct fuel as [|fuel]; [lia|]. rewrite (drain_step fuel r rd Hr).
    rewrite (ring_holds_nil_empty rd Hh). exists r, rd.
    split; [reflexivity|]. split; [exact Hr|].
    split; [now apply ring_holds_nil_empty|].
    split; [now apply ring_holds_nil_drained|reflexivity].
  - cbn [length] in Hfuel.
    destruct fuel as [|[|[|fuel]]]; try lia.
    rewrite (drain_step _ r rd Hr), (ring_holds_cons_nonempty rd p ps Hh).
    destruct (Read_oldest fuel r rd p ps Hr Hh Hw)
      as (r1 & rd1 & rec1 & E & Hs & _ & Hr1 & Hp1 & Hh1 & Hd1).
    rewrite E.
    destruct (IH (S (S fuel)) r1 rd1 Hr1 Hh1 (or_introl Hd1) ltac:(lia))
      as (r2 & rd2 & E2 & Hr2 & He2 & Hc2 & Hp2).
    rewrite E2, Hs. exists r2, rd2.
    split; [reflexivity|]. split; [exact Hr2|]. split; [exact He2|].
    split; congruence.
Qed.

(** C1: whatever records a producer has placed in an empty ring of a
    power-of-two capacity, calling Read until the ring is empty returns
    exactly their payloads, in the order they were written and byte for
    byte, and leaves the consumer position at the producer position. *)
Theorem drain_returns_written_payloads (rd0 rd : ringbufEventRing)
    (payloads : list (list byte)) (r : Reader) (fuel : nat) :
  is_power_of_two (capacity rd0) ->
  capacity rd0 < 2 ^ 32 ->
  0 <= prod_pos rd0 < 2 ^ 64 ->
  cons_pos rd0 = prod_pos rd0 ->
  produce_all rd0 payloads = Some rd ->
  ring r = Some rd ->
  wakes r ->
  (length payloads + 2 <= fuel)%nat ->
  exists r' rd',
    drain fuel r = Returned (r', payloads, None) /\
    ring r' = Some rd' /\ isEmpty rd' = true /\
    consumerPosition rd' = prod_pos rd.
Proof.
  intros Hpow Hlt Hprod Hc Hall Hr Hw Hfuel.
  pose proof (ring_holds_produce_all payloads rd0 rd []
                (ring_holds_empty rd0 Hpow Hlt Hprod Hc) Hall) as Hh.
  cbn [app] in Hh.
  destruct (drain_holding payloads fuel r rd Hr Hh Hw Hfuel)
    as (r' & rd' & E & Hr' & He & Hcp & _).
  exists r', rd'. auto.
Qed.

Lemma drain_returns_written_payloads_witness :
  exists r' rd',
    drain 4 (reader_on wrapped_ring [None]) = Returned (r', [abc; one_byte], None) /\
    ring r' = Some rd' /\ isEmpty rd' = true /\
    consumerPosition rd' = 24.
Proof.
  apply (drain_returns_written_payloads
           (empty_ring 32 (2 ^ 64 - 8)) wrapped_ring [abc; one_byte]
           (reader_on wrapped_ring [None]) 4).
  - exists 5. split; [lia | reflexivity].
  - vm_compute. reflexivity.
  - vm_compute. split; [discriminate | reflexivity].
  - reflexivity.
  - vm_compute. reflexivity.
  - reflexivity.
  - right. split; [reflexivity|]. exists None, []. split; [reflexivity|].
    left. reflexivity.
  - cbn. lia.
Defined.

(** The same ring read by running the model: the two payloads come out in
    order, and a ring whose first record is still busy keeps the reader
    spinning. *)
Example drain_wrapped_ring_runs :
  match drain 4 (reader_on wrapped_ring [None]) with
  | Returned (_, samples, err) => samples = [abc; one_byte] /\ err = None
  | _ => False
  end.
Proof. vm_compute. split; reflexivity. Qed.

Example busy_ring_spins :
  ReadInto 50 (reader_on (sample_ring (2 ^ 31 + 3) abc 16) [None]) zero_Record
  = Spinning.
Proof. vm_compute. reflexivity. Qed.

(** * Further properties of the reader *)

(** ** The length word *)

Lemma Len_split (rh : ringbufHeader) :
  0 <= Len rh < 2 ^ 32 ->
  Len rh = lenWord (dataLen rh) (isBusy rh) (isDiscard rh).
Proof.
  intros Hr. unfold lenWord, BPF_RINGBUF_BUSY_BIT, BPF_RINGBUF_DISCARD_BIT.
  rewrite dataLen_mod, isBusy_testbit, isDiscard_testbit.
  pose proof (Z.testbit_spec' (Len rh) 31 ltac:(lia)) as H31.
  pose proof (Z.testbit_spec' (Len rh) 30 ltac:(lia)) as H30.
  pose proof (Z.div_mod (Len rh) (2 ^ 30) ltac:(lia)) as Hd.
  pose proof (Z.mod_pos_bound (Len rh) (2 ^ 30) ltac:(lia)) as Hm.
  assert (Hq : 0 <= Len rh / 2 ^ 30 < 4).
  { split; [apply Z.div_pos; lia|]. apply Z.div_lt_upper_bound; lia. }
  replace (Len rh / 2 ^ 31) with (Len rh / 2 ^ 30 / 2) in H31
    by (rewrite Z.div_div by lia; reflexivity).
  set (q := Len rh / 2 ^ 30) in *.
  assert (Hcases : q = 0 \/ q = 1 \/ q = 2 \/ q = 3) by lia.
  destruct Hcases as [E|[E|[E|E]]]; rewrite E in *;
    destruct (Z.testbit (Len rh) 31); destruct (Z.testbit (Len rh) 30);
    cbn in H31, H30; try discriminate; lia.
Qed.

(** X1: the length word is the payload length and the two flags, nothing
    else: a word put together from a length below 2^30, a busy flag and a
    discard flag decodes to exactly that length and those flags. *)
Theorem lenWord_decodes (len pg : Z) (busy discard : bool) :
  0 <= len < 2 ^ 30 ->
  let h := mkHeader (lenWord len busy discard) pg in
  dataLen h = len /\ isBusy h = busy /\ isDiscard h = discard.
Proof.
  intros Hlen h.
  assert (Hr : 0 <= Len h < 2 ^ 32).
  { unfold h, lenWord, BPF_RINGBUF_BUSY_BIT, BPF_RINGBUF_DISCARD_BIT. cbn [Len].
    destruct busy, discard; lia. }
  pose proof (Len_split h Hr) as Hs. pose proof (dataLen_range h) as Hd.
  unfold h at 1 in Hs. cbn [Len] in Hs.
  unfold lenWord, BPF_RINGBUF_BUSY_BIT, BPF_RINGBUF_DISCARD_BIT in Hs.
  destruct busy, discard, (isBusy h), (isDiscard h); repeat split; lia.
Qed.

Lemma lenWord_decodes_witness :
  dataLen (mkHeader (lenWord 3 false true) 0) = 3 /\
  isBusy (mkHeader (lenWord 3 false true) 0) = false /\
  isDiscard (mkHeader (lenWord 3 false true) 0) = true.
Proof. apply (lenWord_decodes 3 0 false true). lia. Defined.

(** ** Where the errors of ReadInto come from *)

Lemma Error_eqb_eq (a b : Error) : Error_eqb a b = true <-> a = b.
Proof. unfold Error_eqb. destruct (Error_eq_dec a b); split; congruence. Qed.

Lemma readRecord_outcome (rd : ringbufEventRing) (rec : Record_) rd' rec' err :
  readRecord rd rec = (rd', rec', err) ->
  err = None \/
  (exists e0, err = Some (Errorf "read sample" e0)) \/
  (rec' = rec /\
   (err = Some errEOR \/ err = Some errBusy \/ err = Some errDiscard \/
    exists e0, err = Some (Errorf "read event header" e0))).
Proof.
  unfold readRecord.
  destruct (readHeader (loadConsumer rd)) as [rdh [h|e]].
  - destruct (isBusy h); [intros H; injection H as <- <- <-; tauto|].
    destruct (isDiscard h); [intros H; injection H as <- <- <-; tauto|].
    destruct (ReadFull _ _) as [[[rdf raw] n] [e|]];
      intros H; injection H as <- <- <-; eauto.
  - destruct (Error_eqb e io_EOF); intros H; injection H as <- <- <-;
      right; right; eauto 6.
Qed.

Lemma drainLoop_outcome (fuel : nat) :
  forall (rd : ringbufEventRing) (rec : Record_) rd' rec' ex,
    drainLoop fuel rd rec = Some (rd', rec', ex) ->
    (ex = Break /\ rec' = rec) \/
    ex = Return None \/
    (exists e0, ex = Return (Some (Errorf "read sample" e0))) \/
    (rec' = rec /\ exists e0, ex = Return (Some (Errorf "read event header" e0))).
Proof.
  induction fuel as [|fuel IH]; intros rd rec rd' rec' ex H; [discriminate|].
  cbn [drainLoop] in H.
  destruct (readRecord rd rec) as [[rd1 rec1] err] eqn:E.
  apply readRecord_outcome in E.
  destruct E as [->|[[e0 ->]|[-> [->|[->|[->|[e0 ->]]]]]]].
  - injection H as <- <- <-. tauto.
  - injection H as <- <- <-. eauto.
  - injection H as <- <- <-. tauto.
  - apply IH in H. exact H.
  - apply IH in H. exact H.
  - injection H as <- <- <-. eauto 6.
Qed.

Lemma readLoop_outcome (fuel : nat) :
  forall (r : Reader) (rd : ringbufEventRing) (rec : Record_) r' rec' err,
    readLoop fuel r rd rec = Returned (r', rec', err) ->
    err = None \/
    (exists e0, err = Some (Errorf "read sample" e0)) \/
    (rec' = rec /\
     ((exists e0, err = Some (Errorf "read event header" e0)) \/
      (p_closed (poller r) = true /\ err = Some (Errorf "epoll wait" ErrClosed)) \/
      (exists e, err = Some e /\ Some e ∈ pending (poller r)))).
Proof.
  induction fuel as [|fuel IH]; intros r rd rec r' rec' err H; [discriminate|].
  cbn [readLoop] in H.
  assert (Hgo : forall r1 : Reader,
             (p_closed (poller r1) = true -> p_closed (poller r) = true) ->
             (forall e, Some e ∈ pending (poller r1) -> Some e ∈ pending (poller r)) ->
             match drainLoop fuel rd rec with
             | Some (rd', rec'0, Break) =>
               readLoop fuel
                 (set_haveData (set_ring (set_haveData r1 true) (Some rd')) false)
                 rd' rec'0
             | Some (rd', rec'0, Return err0) =>
               Returned (set_ring (set_haveData r1 true) (Some rd'), rec'0, err0)
             | None => Spinning
             end = Returned (r', rec', err) ->
             err = None \/
             (exists e0, err = Some (Errorf "read sample" e0)) \/
             (rec' = rec /\
              ((exists e0, err = Some (Errorf "read event header" e0)) \/
               (p_closed (poller r) = true /\
                err = Some (Errorf "epoll wait" ErrClosed)) \/
               (exists e, err = Some e /\ Some e ∈ pending (poller r))))).
  { intros r1 Hc Hp H1.
    destruct (drainLoop fuel rd rec) as [[[rd1 rec1] ex]|] eqn:E; [|discriminate].
    apply drainLoop_outcome in E.
    destruct E as [[-> ->]|[->|[[e0 ->]|[-> [e0 ->]]]]].
    - apply IH in H1. cbn [poller set_haveData set_ring] in H1.
      destruct H1 as [->|[[e0 ->]|[-> [[e0 ->]|[[Hcl ->]|(e & -> & He)]]]]].
      + tauto.
      + eauto.
      + right. right. split; [reflexivity|]. left. eauto.
      + right. right. split; [reflexivity|]. right. left. auto.
      + right. right. split; [reflexivity|]. right. right. eauto.
    - injection H1 as <- <- <-. tauto.
    - injection H1 as <- <- <-. eauto.
    - injection H1 as <- <- <-. eauto 8. }
  destruct (haveData r); cbn [negb] in H.
  - apply (Hgo r); auto.
  - unfold poller_Wait in H. destruct (p_closed (poller r)) eqn:Hc.
    + cbn in H. injection H as <- <- <-. right. right. eauto.
    + destruct (pending (poller r)) as [|w rest] eqn:Hp; [discriminate|].
      assert (Hin : forall e, Some e ∈ rest -> Some e ∈ w :: rest)
        by (intros e He; apply elem_of_cons; now right).
      destruct w as [e|].
      * destruct (errors_Is_opt (Some e) ErrDeadlineExceeded && negb (isEmpty rd)).
        -- apply (Hgo (set_poller r (mkPoller false rest))); [discriminate|exact Hin|exact H].
        -- injection H as <- <- <-. right. right. split; [reflexivity|].
           right. right. exists e. split; [reflexivity|apply elem_of_cons; now left].
      * cbn [errors_Is_opt andb] in H.
        apply (Hgo (set_poller r (mkPoller false rest))); [discriminate|exact Hin|exact H].
Qed.

Lemma reports_no_transient_elem (p : Poller) (e : Error) :
  reports_no_transient p = true -> Some e ∈ pending p -> is_transient e = false.
Proof.
  unfold reports_no_transient. intros H He.
  rewrite forallb_forall in H. apply list_elem_of_In in He.
  specialize (H _ He). now apply negb_true_iff in H.
Qed.

(** X2: the framer's signals Busy, Discarded and EndOfRing stay inside
    ReadInto: unless the poller itself reports one of these values, no error
    that ReadInto returns is one of them. *)
Theorem transient_signals_stay_inside (fuel : nat) (r : Reader) (rec : Record_)
    (r' : Reader) (rec' : Record_) (e : Error) :
  reports_no_transient (poller r) = true ->
  ReadInto fuel r rec = Returned (r', rec', Some e) ->
  is_transient e = false.
Proof.
  intros Hp. unfold ReadInto. destruct (ring r) as [rd|].
  - intros H. apply readLoop_outcome in H.
    destruct H as [H|[[e0 H]|[_ [[e0 H]|[[_ H]|(e1 & H & He)]]]]];
      try discriminate; injection H as ->; try reflexivity.
    now apply (reports_no_transient_elem (poller r)).
  - intros H. injection H as _ _ <-. reflexivity.
Qed.

Lemma transient_signals_stay_inside_witness :
  is_transient ErrDeadlineExceeded = false.
Proof.
  apply (transient_signals_stay_inside 1
           (reader_on (empty_ring 32 0) [Some ErrDeadlineExceeded]) zero_Record
           (reader_on (empty_ring 32 0) []) zero_Record ErrDeadlineExceeded);
    reflexivity.
Defined.

(** X3: a ReadInto that fails leaves the caller's Record as it found it,
    unless the failure is a short read of the payload, the one error that
    comes after the buffer has been set up. *)
Theorem failed_ReadInto_keeps_record (fuel : nat) (r : Reader) (rec : Record_)
    (r' : Reader) (rec' : Record_) (e : Error) :
  ReadInto fuel r rec = Returned (r', rec', Some e) ->
  rec' = rec \/ exists e0, e = Errorf "read sample" e0.
Proof.
  unfold ReadInto. destruct (ring r) as [rd|].
  - intros H. apply readLoop_outcome in H.
    destruct H as [H|[[e0 H]|[-> _]]]; [discriminate| |tauto].
    injection H as ->. eauto.
  - intros H. injection H as _ <- _. tauto.
Qed.

Lemma failed_ReadInto_keeps_record_witness :
  zero_Record = zero_Record \/
  exists e0, ErrDeadlineExceeded = Errorf "read sample" e0.
Proof.
  apply (failed_ReadInto_keeps_record 1
           (reader_on (empty_ring 32 0) [Some ErrDeadlineExceeded]) zero_Record
           (reader_on (empty_ring 32 0) []) zero_Record ErrDeadlineExceeded).
  reflexivity.
Defined.

(** ** Construction and teardown *)

Lemma NewReader_checks_pass (m : Map) :
  0 <= map_MaxEntries m < 2 ^ 32 ->
  map_Type m = RingBuf ->
  0 < map_MaxEntries m ->
  is_power_of_two (map_MaxEntries m) ->
  negb (MapType_eqb (map_Type m) RingBuf) = false /\
  ((int_of_u32 (map_MaxEntries m) =? 0) ||
   negb (Z.land (int_of_u32 (map_MaxEntries m))
                (int_of_u32 (map_MaxEntries m) - 1) =? 0)) = false.
Proof.
  intros Hr Ht Hpos Hpow. split.
  - apply negb_false_iff, MapType_eqb_RingBuf, Ht.
  - unfold int_of_u32, u32. rewrite Z.mod_small by exact Hr.
    apply power_of_two_check. left. now split.
Qed.

(** X4: NewReader hands back a Reader exactly when the map is of the
    ring-buffer kind, its capacity is a power of two (zero excluded) and none
    of the three system calls fails; the Reader is then open, has no data
    flag and no deadline, and its BufferSize is the size of the mapped
    ring. *)
Theorem NewReader_succeeds_iff (env : Env) (m : Map) (sys : Sys) :
  0 <= map_MaxEntries m < 2 ^ 32 ->
  ((exists sys' r, NewReader env m sys = (sys', Some r, None)) <->
   (map_Type m = RingBuf /\ 0 < map_MaxEntries m /\
    is_power_of_two (map_MaxEntries m) /\
    env_epoll_New env = None /\ env_poller_Add env = None /\
    env_mmap env = None)) /\
  (forall sys' r err,
      NewReader env m sys = (sys', Some r, err) ->
      err = None /\ sys' = EvRingMap :: EvEpollCreate :: sys /\
      ring r = Some (loadConsumer (env_shared env)) /\
      p_closed (poller r) = false /\ haveData r = false /\ deadline r = 0 /\
      BufferSize r = size (env_shared env)).
Proof.
  intros Hr. split; [split|].
  - intros (sys' & r & H). unfold NewReader in H.
    destruct (MapType_eqb (map_Type m) RingBuf) eqn:Ht; cbn [negb] in H;
      [|discriminate].
    apply MapType_eqb_RingBuf in Ht.
    unfold int_of_u32, u32 in H. rewrite Z.mod_small in H by exact Hr.
    destruct ((map_MaxEntries m =? 0) ||
              negb (Z.land (map_MaxEntries m) (map_MaxEntries m - 1) =? 0)) eqn:Hc;
      [discriminate|].
    apply power_of_two_check in Hc. destruct Hc as [[Hpos Hpow]|[Hneg _]]; [|lia].
    unfold epoll_New, poller_Add, newRingBufEventRing, poller_Close in H.
    destruct (env_epoll_New env); [discriminate|].
    destruct (env_poller_Add env); [discriminate|].
    destruct (env_mmap env); [discriminate|].
    repeat split; assumption.
  - intros (Ht & Hpos & Hpow & H1 & H2 & H3).
    destruct (NewReader_checks_pass m Hr Ht Hpos Hpow) as [C1 C2].
    unfold NewReader. rewrite C1, C2.
    unfold epoll_New, poller_Add, newRingBufEventRing.
    rewrite H1, H2, H3. eauto.
  - intros sys' r err. unfold NewReader.
    destruct (negb (MapType_eqb (map_Type m) RingBuf)); [discriminate|].
    destruct (_ || _); [discriminate|].
    unfold epoll_New, poller_Add, newRingBufEventRing, poller_Close.
    destruct (env_epoll_New env); [discriminate|].
    destruct (env_poller_Add env); [discriminate|].
    destruct (env_mmap env); [discriminate|].
    intros H. injection H as <- <- <-. repeat split.
Qed.

Lemma NewReader_succeeds_iff_witness :
  exists sys' r, NewReader quiet_env map_of_32 [] = (sys', Some r, None).
Proof.
  destruct (NewReader_succeeds_iff quiet_env map_of_32 [] ltac:(cbn; lia))
    as [[_ H] _].
  apply H. split; [reflexivity|]. split; [cbn; lia|].
  split; [exists 5; split; [lia|reflexivity]|].
  split; [reflexivity|]. split; reflexivity.
Defined.

(** X5: a NewReader that fails hands back no Reader and leaves nothing
    behind: either the system is untouched (wrong kind, bad capacity, no
    poller to be had), or the one poller it created has been closed again
    (registration or mapping failed); no ring stays mapped. *)
Theorem NewReader_failure_leaves_nothing (env : Env) (m : Map) (sys sys' : Sys)
    (r : option Reader) (err : Error) :
  NewReader env m sys = (sys', r, Some err) ->
  r = None /\
  (sys' = sys \/ sys' = EvEpollClose :: EvEpollCreate :: sys).
Proof.
  unfold NewReader, epoll_New, poller_Add, newRingBufEventRing, poller_Close.
  destruct (negb (MapType_eqb (map_Type m) RingBuf));
    [intros H; injection H as <- <- _; auto|].
  destruct (_ || _); [intros H; injection H as <- <- _; auto|].
  destruct (env_epoll_New env); [intros H; injection H as <- <- _; auto|].
  cbn [p_closed pending].
  destruct (env_poller_Add env); [intros H; injection H as <- <- _; auto|].
  destruct (env_mmap env); [|discriminate].
  intros H; injection H as <- <- _. auto.
Qed.

Lemma NewReader_failure_leaves_nothing_witness :
  (None : option Reader) = None /\
  ([EvEpollClose; EvEpollCreate] = [] \/
   [EvEpollClose; EvEpollCreate] = [EvEpollClose; EvEpollCreate]).
Proof.
  apply (NewReader_failure_leaves_nothing add_fails_env map_of_32 []
           [EvEpollClose; EvEpollCreate] None (Errno 9)).
  reflexivity.
Defined.

(** What the system has handed out and not got back. *)
Lemma Close_resources (r : Reader) (sys : Sys) r' sys' err :
  Close r sys = (r', sys', err) ->
  err = None /\ p_closed (poller r') = true /\
  (p_closed (poller r) = false -> ring r' = None) /\
  (p_closed (poller r) = true -> ring r' = ring r) /\
  (count_ev EvEpollClose sys' + poller_live r' =
   count_ev EvEpollClose sys + poller_live r)%nat /\
  (count_ev EvRingUnmap sys' + ring_live r' =
   count_ev EvRingUnmap sys + ring_live r)%nat /\
  count_ev EvEpollCreate sys' = count_ev EvEpollCreate sys /\
  count_ev EvRingMap sys' = count_ev EvRingMap sys.
Proof.
  unfold Close, poller_Close, ring_live, poller_live.
  destruct r as [[c pe] rg hd dl bs].
  cbn [poller p_closed pending ring set_poller set_ring haveData deadline bufferSize].
  destruct c.
  - cbn. intros H. injection H as <- <- <-. cbn. repeat split; discriminate.
  - destruct rg as [rd|]; intros H; injection H as <- <- <-;
      unfold count_ev; cbn; repeat split; try discriminate; lia.
Qed.

Lemma run_op_resources (fuel : nat) (op : Op) (r : Reader) (sys : Sys)
    r' sys' res :
  run_op fuel op (r, sys) = Returned (r', sys', res) ->
  (count_ev EvEpollClose sys' + poller_live r' =
   count_ev EvEpollClose sys + poller_live r)%nat /\
  (count_ev EvRingUnmap sys' + ring_live r' =
   count_ev EvRingUnmap sys + ring_live r)%nat /\
  count_ev EvEpollCreate sys' = count_ev EvEpollCreate sys /\
  count_ev EvRingMap sys' = count_ev EvRingMap sys.
Proof.
  destruct op as [|rec|t| |]; cbn [run_op].
  - unfold Read. destruct (ReadInto fuel r zero_Record) as [[[r1 rec1] e1]| |] eqn:E;
      [|discriminate|discriminate].
    intros H. injection H as <- <- <-. apply ReadInto_keeps in E.
    destruct E as (E1 & E2 & _). unfold poller_live. rewrite E1, E2. auto.
  - destruct (ReadInto fuel r rec) as [[[r1 rec1] e1]| |] eqn:E;
      [|discriminate|discriminate].
    intros H. injection H as <- <- <-. apply ReadInto_keeps in E.
    destruct E as (E1 & E2 & _). unfold poller_live. rewrite E1, E2. auto.
  - intros H. injection H as <- <- <-. auto.
  - intros H. injection H as <- <- <-. auto.
  - destruct (Close r sys) as [[r1 sys1] e1] eqn:E.
    intros H. injection H as <- <- <-. apply Close_resources in E. tauto.
Qed.

Lemma run_ops_resources (fuel : nat) (ops : list Op) :
  forall (r : Reader) (sys : Sys) r' sys',
    run_ops fuel ops (r, sys) = Returned (r', sys') ->
    (count_ev EvEpollClose sys' + poller_live r' =
     count_ev EvEpollClose sys + poller_live r)%nat /\
    (count_ev EvRingUnmap sys' + ring_live r' =
     count_ev EvRingUnmap sys + ring_live r)%nat /\
    count_ev EvEpollCreate sys' = count_ev EvEpollCreate sys /\
    count_ev EvRingMap sys' = count_ev EvRingMap sys /\
    bufferSize r' = bufferSize r.
Proof.
  induction ops as [|op ops IH]; intros r sys r' sys' H; cbn [run_ops] in H.
  - injection H as <- <-. auto.
  - destruct (run_op fuel op (r, sys)) as [[[r1 sys1] res]| |] eqn:E;
      [|discriminate|discriminate].
    pose proof (run_op_keeps _ _ _ _ _ _ _ E) as (_ & _ & _ & Hb).
    apply run_op_resources in E. apply IH in H.
    destruct E as (E1 & E2 & E3 & E4), H as (H1 & H2 & H3 & H4 & H5).
    repeat split; congruence || lia.
Qed.




(** X7: across any run of operations, Close among them, BufferSize keeps
    answering with the same value, and the poller is closed exactly when the
    ring is gone. *)
Theorem BufferSize_never_changes (fuel : nat) (ops : list Op) (r : Reader)
    (sys : Sys) (r' : Reader) (sys' : Sys) :
  reader_ok r ->
  run_ops fuel ops (r, sys) = Returned (r', sys') ->
  BufferSize r' = BufferSize r /\ reader_ok r'.
Proof.
  intros Hok Hrun. split.
  - apply run_ops_resources in Hrun. unfold BufferSize. tauto.
  - apply run_ops_keeps in Hrun. tauto.
Qed.

Lemma BufferSize_never_changes_witness :
  BufferSize (fst closed_sample) = 32.
Proof.
  assert (Hok : reader_ok (reader_on (empty_ring 32 0) []))
    by (unfold reader_ok; cbn; split; discriminate).
  destruct (BufferSize_never_changes 1 [OpSetDeadline 7; OpClose]
              (reader_on (empty_ring 32 0) []) []
              (SetDeadline (fst closed_sample) 7) (snd closed_sample)
              Hok eq_refl) as [H _].
  exact H.
Defined.

(** ** More on the framer *)

Lemma readRecord_short_eq (rd : ringbufEventRing) (rec : Record_)
    (h : ringbufHeader) :
  0 < capacity rd ->
  0 <= prod_pos rd < 2 ^ 64 ->
  readHeaderAt rd (cons_pos rd) = Some h ->
  isBusy h = false ->
  isDiscard h = false ->
  Align (dataLen h) 8 <= capacity rd ->
  let aligned := Z.to_nat (Align (dataLen h) 8) in
  let c8 := u64 (cons_pos rd + ringbufHeaderSize) in
  let n := Z.to_nat (u64 (prod_pos rd - c8)) in
  u64 (prod_pos rd - c8) < Z.of_nat aligned ->
  readRecord rd rec =
  (set_cons rd (u64 (c8 + Z.of_nat n)),
   mkRecord (mkSlice (copyBytes rd c8 n ++ drop n (s_arr (sampleBuffer rec h)))
                     aligned)
            (Remaining rec),
   Some (Errorf "read sample"
                (if (0 <? n)%nat then io_ErrUnexpectedEOF else io_EOF))).
Proof.
  intros Hcap Hprod Hh Hb Hd Hfit aligned c8 n Hshort.
  rewrite (readRecord_unfold rd rec h Hh Hb Hd). fold c8.
  pose proof (Align_dataLen_range h) as Hr.
  pose proof (u64_range (prod_pos rd - c8)) as Hu.
  assert (Hn : readable (set_cons rd c8) aligned = n).
  { unfold readable, n. cbn [set_cons prod_pos cons]. lia. }
  rewrite ReadFull_eq; rewrite ?s_len_sampleBuffer; fold aligned;
    [|exact Hcap|exact Hprod|unfold aligned, capacity in *; cbn [set_cons data]; lia].
  rewrite Hn.
  replace (n <? aligned)%nat with true by (symmetry; apply Nat.ltb_lt; lia).
  replace (aligned =? 0)%nat with false by (symmetry; apply Nat.eqb_neq; lia).
  reflexivity.
Qed.

(** X8: when the producer has published the header but not yet the whole
    payload it announces, readRecord fails with a read-sample error that
    wraps io.ErrUnexpectedEOF, or io.EOF when no payload byte is there at
    all; the consumer position is not stored, so the record is not lost; the
    caller's buffer is left resized to the aligned length. *)
Theorem short_read_does_not_consume (rd : ringbufEventRing) (rec : Record_)
    (h : ringbufHeader) :
  0 < capacity rd ->
  0 <= prod_pos rd < 2 ^ 64 ->
  readHeaderAt rd (cons_pos rd) = Some h ->
  isBusy h = false ->
  isDiscard h = false ->
  Align (dataLen h) 8 <= capacity rd ->
  u64 (prod_pos rd - u64 (cons_pos rd + 8)) < Align (dataLen h) 8 ->
  exists rd' rec' e,
    readRecord rd rec = (rd', rec', Some (Errorf "read sample" e)) /\
    (e = if 0 <? u64 (prod_pos rd - u64 (cons_pos rd + 8))
         then io_ErrUnexpectedEOF else io_EOF) /\
    consumerPosition rd' = consumerPosition rd /\
    prod_pos rd' = prod_pos rd /\ data rd' = data rd /\
    Remaining rec' = Remaining rec /\
    Z.of_nat (s_len (RawSample rec')) = Align (dataLen h) 8.
Proof.
  intros Hcap Hprod Hh Hb Hd Hfit Hshort.
  pose proof (Align_dataLen_range h) as Hr.
  pose proof (u64_range (prod_pos rd - u64 (cons_pos rd + 8))) as Hu.
  rewrite (readRecord_short_eq rd rec h Hcap Hprod Hh Hb Hd Hfit)
    by (unfold ringbufHeaderSize; lia).
  do 3 eexists. split; [reflexivity|].
  cbn [RawSample Remaining s_len consumerPosition set_cons cons_pos prod_pos data].
  unfold ringbufHeaderSize. repeat split; [|lia].
  destruct (Z.ltb_spec 0 (u64 (prod_pos rd - u64 (cons_pos rd + 8))));
    [replace (0 <? _)%nat with true by (symmetry; apply Nat.ltb_lt; lia)
    |replace (0 <? _)%nat with false by (symmetry; apply Nat.ltb_ge; lia)];
    reflexivity.
Qed.

Lemma short_read_does_not_consume_witness :
  exists rd' rec' e,
    readRecord half_published zero_Record
    = (rd', rec', Some (Errorf "read sample" e)) /\
    e = io_ErrUnexpectedEOF /\ consumerPosition rd' = 0.
Proof.
  destruct (short_read_does_not_consume half_published zero_Record
              (mkHeader 16 0)) as (rd' & rec' & e & E & He & Hc & _);
    try reflexivity.
  - cbn. lia.
  - vm_compute. discriminate.
  - exists rd', rec', e. split; [exact E|]. split; [exact He | exact Hc].
Defined.

(** X9: on a successful readRecord a caller's buffer that can hold the
    aligned length is reused: its capacity is kept and the bytes behind the
    aligned length are untouched; a smaller one is replaced by a fresh buffer
    of exactly the aligned length. *)
Theorem buffer_reused_when_large_enough (rd : ringbufEventRing) (rec : Record_)
    (h : ringbufHeader) (rd' : ringbufEventRing) (rec' : Record_) :
  0 < capacity rd ->
  0 <= prod_pos rd < 2 ^ 64 ->
  readHeaderAt rd (cons_pos rd) = Some h ->
  isBusy h = false ->
  isDiscard h = false ->
  Align (dataLen h) 8 <= capacity rd ->
  readRecord rd rec = (rd', rec', None) ->
  let aligned := Z.to_nat (Align (dataLen h) 8) in
  ((aligned <= slice_cap (RawSample rec))%nat ->
   slice_cap (RawSample rec') = slice_cap (RawSample rec) /\
   drop aligned (s_arr (RawSample rec')) = drop aligned (s_arr (RawSample rec))) /\
  ((slice_cap (RawSample rec) < aligned)%nat ->
   slice_cap (RawSample rec') = aligned).
Proof.
  intros Hcap Hprod Hh Hb Hd Hfit Hok aligned.
  pose proof (Align_dataLen_range h) as Hr.
  destruct (Z_le_gt_dec (Z.of_nat aligned)
              (u64 (prod_pos rd - u64 (cons_pos rd + ringbufHeaderSize))))
    as [Hpub|Hshort].
  2:{ rewrite (readRecord_short_eq rd rec h Hcap Hprod Hh Hb Hd Hfit) in Hok
        by (fold aligned; lia). discriminate. }
  rewrite (readRecord_committed rd rec h Hcap Hprod Hh Hb Hd Hfit Hpub) in Hok.
  cbn zeta in Hok. injection Hok as _ <-. cbn [RawSample].
  unfold slice_cap. cbn [s_arr]. fold aligned.
  assert (Hlen : length (copyBytes rd (u64 (cons_pos rd + ringbufHeaderSize)) aligned)
                 = aligned) by (apply length_copyBytes; [exact Hcap|lia]).
  unfold sampleBuffer. rewrite u64_Align_dataLen.
  assert (Hint : int_of_u64 (Align (dataLen h) 8) = Align (dataLen h) 8).
  { unfold int_of_u64. destruct (Z.ltb_spec (Align (dataLen h) 8) (2 ^ 63)); lia. }
  rewrite Hint. fold aligned. split; intros Hc.
  - destruct (Z.ltb_spec (Z.of_nat (slice_cap (RawSample rec)))
                (Align (dataLen h) 8)) as [Hlt|_];
      [unfold slice_cap in *; lia|].
    cbn [reslice s_arr]. split.
    + rewrite length_app, Hlen, length_drop. unfold slice_cap in Hc. lia.
    + now rewrite drop_app_length'.
  - destruct (Z.ltb_spec (Z.of_nat (slice_cap (RawSample rec)))
                (Align (dataLen h) 8)) as [_|Hge];
      [|unfold slice_cap in *; lia].
    cbn [make_slice s_arr].
    rewrite length_app, Hlen, length_drop, length_replicate. lia.
Qed.

Lemma buffer_reused_when_large_enough_witness :
  slice_cap (RawSample (snd (fst (readRecord two_records
                                      (mkRecord (make_slice 40) 0))))) = 40%nat.
Proof.
  assert (H1 : 0 < capacity two_records) by (vm_compute; reflexivity).
  assert (H2 : 0 <= prod_pos two_records < 2 ^ 64)
    by (vm_compute; split; [discriminate | reflexivity]).
  assert (H3 : readHeaderAt two_records (cons_pos two_records)
               = Some (mkHeader 10 0)) by (vm_compute; reflexivity).
  assert (H6 : Align (dataLen (mkHeader 10 0)) 8 <= capacity two_records)
    by (vm_compute; discriminate).
  assert (E : readRecord two_records (mkRecord (make_slice 40) 0)
              = (fst (fst (readRecord two_records (mkRecord (make_slice 40) 0))),
                 snd (fst (readRecord two_records (mkRecord (make_slice 40) 0))),
                 None)) by (vm_compute; reflexivity).
  destruct (buffer_reused_when_large_enough two_records
              (mkRecord (make_slice 40) 0) (mkHeader 10 0) _ _
              H1 H2 H3 eq_refl eq_refl H6 E) as [H _].
  destruct H as [Hc _]; [vm_compute; lia|]. exact Hc.
Defined.





(** ** More on ReadInto *)

(** X11: a discarded record in front of a committed one does not end the
    call: with the data flag set, ReadInto skips it and returns the
    committed record in the same call, without asking the poller. *)
Theorem discarded_record_is_skipped (fuel : nat) (r : Reader)
    (rd rd1 rd2 : ringbufEventRing) (rec rec1 rec2 : Record_) :
  ring r = Some rd ->
  haveData r = true ->
  readRecord rd rec = (rd1, rec1, Some errDiscard) ->
  readRecord rd1 rec1 = (rd2, rec2, None) ->
  ReadInto (S (S (S fuel))) r rec
  = Returned (set_ring r (Some rd2), rec2, None) /\
  rec1 = rec.
Proof.
  intros Hr Hd E1 E2. split.
  - unfold ReadInto. rewrite Hr, readLoop_have_data by exact Hd.
    cbn [drainLoop]. rewrite E1.
    change (Error_eqb errDiscard errBusy || Error_eqb errDiscard errDiscard)
      with true. cbv iota. rewrite E2.
    destruct r as [p rg hd dl bs]. cbn in Hd. subst hd. reflexivity.
  - apply readRecord_outcome in E1.
    destruct E1 as [H|[[e0 H]|[H _]]]; [discriminate|discriminate|exact H].
Qed.

Lemma discarded_record_is_skipped_witness :
  exists r' rec',
    ReadInto 3 (set_haveData (reader_on discard_then_record []) true) zero_Record
    = Returned (r', rec', None) /\
    slice_bytes (RawSample rec') = one_byte.
Proof.
  assert (E1 : readRecord discard_then_record zero_Record
               = (fst (fst (readRecord discard_then_record zero_Record)),
                  zero_Record, Some errDiscard)) by (vm_compute; reflexivity).
  assert (E2 : readRecord (fst (fst (readRecord discard_then_record zero_Record)))
                          zero_Record
               = (fst (fst (readRecord
                              (fst (fst (readRecord discard_then_record zero_Record)))
                              zero_Record)),
                  snd (fst (readRecord
                              (fst (fst (readRecord discard_then_record zero_Record)))
                              zero_Record)),
                  None)) by (vm_compute; reflexivity).
  destruct (discarded_record_is_skipped 0
              (set_haveData (reader_on discard_then_record []) true)
              discard_then_record _ _ zero_Record _ _ eq_refl eq_refl E1 E2)
    as [H _].
  do 2 eexists. split; [exact H|]. vm_compute. reflexivity.
Defined.

(** X12: end of ring is answered by waiting: when the data flag is set but
    the consumer position has reached the producer position, ReadInto clears
    the flag and asks the poller; an error the poller then reports, a
    deadline included, is returned as it is, with the flag left cleared and
    the Record untouched. *)
Theorem end_of_ring_falls_back_to_wait (fuel : nat) (r : Reader)
    (rd : ringbufEventRing) (rec : Record_) (e : Error)
    (rest : list (option Error)) :
  ring r = Some rd ->
  haveData r = true ->
  cons_pos rd = prod_pos rd ->
  p_closed (poller r) = false ->
  pending (poller r) = Some e :: rest ->
  ReadInto (S (S fuel)) r rec
  = Returned (mkReader (mkPoller false rest) (Some (loadConsumer rd)) false
                       (deadline r) (bufferSize r),
              rec, Some e).
Proof.
  intros Hr Hd Hc Hp Hpe. unfold ReadInto.
  rewrite Hr, readLoop_have_data by exact Hd.
  assert (Hend : readHeaderAt rd (cons_pos rd) = None).
  { unfold readHeaderAt, loadProducerPosition. now rewrite Hc, Z.eqb_refl. }
  cbn [drainLoop]. rewrite (readRecord_end rd rec Hend).
  change (Error_eqb errEOR errBusy || Error_eqb errEOR errDiscard) with false.
  change (Error_eqb errEOR errEOR) with true. cbv iota.
  rewrite (readLoop_wait fuel _ (loadConsumer rd) rec (Some e) rest);
    [|reflexivity|exact Hp|exact Hpe].
  assert (Hempty : isEmpty (loadConsumer rd) = true).
  { unfold isEmpty, remainingBytes, loadProducerPosition, consumerPosition.
    cbn [loadConsumer set_cons prod_pos cons_pos].
    rewrite Hc, Z.sub_diag. reflexivity. }
  rewrite Hempty, andb_false_r. reflexivity.
Qed.

Lemma end_of_ring_falls_back_to_wait_witness :
  ReadInto 2 (set_haveData (reader_on (empty_ring 32 0)
                                      [Some ErrDeadlineExceeded]) true)
           zero_Record
  = Returned (reader_on (empty_ring 32 0) [], zero_Record,
              Some ErrDeadlineExceeded).
Proof.
  apply (end_of_ring_falls_back_to_wait 0
           (set_haveData (reader_on (empty_ring 32 0)
                                    [Some ErrDeadlineExceeded]) true)
           (empty_ring 32 0) zero_Record ErrDeadlineExceeded []);
    reflexivity.
Defined.

(** X13: a wake-up that finds the ring empty returns nothing to the caller:
    ReadInto sets the data flag, hits the end of the ring, clears the flag
    and waits again, so that the call ends with what the poller reports
    next. *)
Theorem empty_wakeup_waits_again (fuel : nat) (r : Reader)
    (rd : ringbufEventRing) (rec : Record_) (e : Error)
    (rest : list (option Error)) :
  ring r = Some rd ->
  haveData r = false ->
  cons_pos rd = prod_pos rd ->
  p_closed (poller r) = false ->
  pending (poller r) = None :: Some e :: rest ->
  ReadInto (S (S fuel)) r rec
  = Returned (mkReader (mkPoller false rest) (Some (loadConsumer rd)) false
                       (deadline r) (bufferSize r),
              rec, Some e).
Proof.
  intros Hr Hd Hc Hp Hpe. unfold ReadInto. rewrite Hr.
  rewrite (readLoop_wait (S fuel) r rd rec None (Some e :: rest) Hd Hp Hpe).
  cbn [errors_Is_opt andb]. cbv zeta.
  rewrite readLoop_have_data by reflexivity.
  assert (Hend : readHeaderAt rd (cons_pos rd) = None).
  { unfold readHeaderAt, loadProducerPosition. now rewrite Hc, Z.eqb_refl. }
  cbn [drainLoop]. rewrite (readRecord_end rd rec Hend).
  change (Error_eqb errEOR errBusy || Error_eqb errEOR errDiscard) with false.
  change (Error_eqb errEOR errEOR) with true. cbv iota.
  rewrite (readLoop_wait fuel _ (loadConsumer rd) rec (Some e) rest);
    [|reflexivity|reflexivity|reflexivity].
  assert (Hempty : isEmpty (loadConsumer rd) = true).
  { unfold isEmpty, remainingBytes, loadProducerPosition, consumerPosition.
    cbn [loadConsumer set_cons prod_pos cons_pos].
    rewrite Hc, Z.sub_diag. reflexivity. }
  rewrite Hempty, andb_false_r. reflexivity.
Qed.

Lemma empty_wakeup_waits_again_witness :
  ReadInto 2 (reader_on (empty_ring 32 0) [None; Some (Errno 4)]) zero_Record
  = Returned (reader_on (empty_ring 32 0) [], zero_Record, Some (Errno 4)).
Proof.
  apply (empty_wakeup_waits_again 0
           (reader_on (empty_ring 32 0) [None; Some (Errno 4)])
           (empty_ring 32 0) zero_Record (Errno 4) []);
    reflexivity.
Defined.

(** ** The ring as a queue, producer and consumer taking turns *)





(** What the sample turns give when run: the three records that fit come
    out in order, the record of ten bytes is refused for lack of room. *)
Example sample_actions_run :
  match run_actions 2 sample_actions
          (reader_on (empty_ring 32 (2 ^ 64 - 8)) [None]) with
  | Returned (_, outs, acc) =>
    outs = [abc; one_byte; abc] /\ acc = [abc; one_byte; abc]
  | _ => False
  end.
Proof. vm_compute. split; reflexivity. Qed.

Lemma length_frames (ps : list (list byte)) :
  Z.of_nat (length (frames ps)) = framed_size ps.
Proof.
  induction ps as [|p ps IH]; [reflexivity|].
  rewrite frames_cons, length_app, Nat2Z.inj_add, length_frame, IH.
  cbn [framed_size fold_right]. fold (framed_size ps). lia.
Qed.

(** X15: on a ring filled by the producer, Read returns the oldest payload
    and reports as Remaining the bytes the records still waiting take in the
    ring: for each of them the eight header bytes plus its length rounded up
    to eight. *)
Theorem Remaining_is_framed_size_left (fuel : nat) (rd0 rd : ringbufEventRing)
    (p : list byte) (ps : list (list byte)) (r : Reader) :
  is_power_of_two (capacity rd0) ->
  capacity rd0 < 2 ^ 32 ->
  0 <= prod_pos rd0 < 2 ^ 64 ->
  cons_pos rd0 = prod_pos rd0 ->
  produce_all rd0 (p :: ps) = Some rd ->
  ring r = Some rd ->
  wakes r ->
  exists r' rec',
    Read (S (S fuel)) r = Returned (r', rec', None) /\
    slice_bytes (RawSample rec') = p /\
    Remaining rec' = framed_size ps /\
    haveData r' = true.
Proof.
  intros Hpow Hlt Hprod Hc Hall Hr Hw.
  pose proof (ring_holds_produce_all (p :: ps) rd0 rd []
                (ring_holds_empty rd0 Hpow Hlt Hprod Hc) Hall) as Hh.
  cbn [app] in Hh.
  destruct (Read_oldest fuel r rd p ps Hr Hh Hw)
    as (r' & rd' & rec' & E & Hs & Hm & _ & _ & _ & Hd).
  exists r', rec'. rewrite <- length_frames. auto.
Qed.

Lemma Remaining_is_framed_size_left_witness :
  exists r' rec',
    Read 2 (reader_on two_records [None]) = Returned (r', rec', None) /\
    slice_bytes (RawSample rec') = ten_bytes /\
    Remaining rec' = 32 /\
    haveData r' = true.
Proof.
  apply (Remaining_is_framed_size_left 0 (empty_ring 4096 0) two_records
           ten_bytes [twenty_bytes] (reader_on two_records [None])).
  - exists 12. split; [lia | reflexivity].
  - vm_compute. reflexivity.
  - vm_compute. split; [discriminate | reflexivity].
  - reflexivity.
  - vm_compute. reflexivity.
  - reflexivity.
  - right. split; [reflexivity|]. exists None, []. split; [reflexivity|].
    left. reflexivity.
Defined.

(** ** The length word, read back *)

(** X16: a 32-bit length word is accounted for in full by what the three
    accessors give: it is the payload length, below 2^30, plus 2^31 when the
    header is busy, plus 2^30 when it is discarded; two headers with the
    same length and flags have the same word. *)
Theorem length_word_is_length_and_flags (rh : ringbufHeader) :
  0 <= Len rh < 2 ^ 32 ->
  Len rh = dataLen rh + (if isBusy rh then 2 ^ 31 else 0)
                      + (if isDiscard rh then 2 ^ 30 else 0) /\
  0 <= dataLen rh < 2 ^ 30.
Proof.
  intros Hr. split; [|apply dataLen_range].
  rewrite (Len_split rh Hr) at 1. reflexivity.
Qed.

Lemma length_word_is_length_and_flags_witness :
  2 ^ 31 + 3 = dataLen (mkHeader (2 ^ 31 + 3) 0)
               + (if isBusy (mkHeader (2 ^ 31 + 3) 0) then 2 ^ 31 else 0)
               + (if isDiscard (mkHeader (2 ^ 31 + 3) 0) then 2 ^ 30 else 0) /\
  0 <= dataLen (mkHeader (2 ^ 31 + 3) 0) < 2 ^ 30.
Proof.
  apply (length_word_is_length_and_flags (mkHeader (2 ^ 31 + 3) 0)).
  cbn. lia.
Defined.
